(** * file-memory: a JSON-file backed key-value store (go-joe/file-memory)

    A shallow embedding of the Go package [file] and the properties its
    specification states about it.

    The sources hold two revisions of the package: [src/memory.go] (receiver
    type [Memory]) and the revision whose methods carry doc comments
    (receiver type [memory]).  Their [NewMemory], [Set], [Get], [Memories],
    [Close] and [persist] have the same bodies and are embedded once; the two
    [Delete] methods differ and are embedded separately ([Delete] for the
    documented revision, [MemoryGo.Delete] for [src/memory.go]).

    Go maps are references: the store's [data] field is a pointer into a heap
    of maps (or nil once the store is closed).  The operating system is a
    small model of a flat file system with an oracle for failing calls; the
    JSON codec of [encoding/json] is a parameter of the development. *)

From stdpp Require Import base option list gmap strings sorting.

Set Default Proof Using "Type".

(** ** Go values *)

(** The errors with which the system fails a call on a file that exists. *)
Inductive errno := EACCES | EIO | ENOSPC | EMFILE.

(** Go [error] values: [errors.New], [errors.Wrap] of github.com/pkg/errors,
    the [*os.PathError] of package os, either for a missing file (ENOENT,
    [os_NotExist]) or for another failure, and the decoder's syntax error.  A
    Go value of interface type [error] is an [option error], [None] being
    nil. *)
Inductive error :=
  | errors_New (msg : string)
  | errors_Wrap (cause : error) (msg : string)
  | os_NotExist (op name : string)
  | os_PathError (op name : string) (e : errno)
  | json_SyntaxError (msg : string).

#[global] Instance errno_eq_dec : EqDecision errno.
Proof. solve_decision. Defined.

#[global] Instance error_eq_dec : EqDecision error.
Proof. solve_decision. Defined.

(** [os.IsNotExist]: true on the error of a call that found no file.  It does
    not look through [errors.Wrap], and it is false on nil. *)
Definition os_IsNotExist (err : option error) : bool :=
  match err with
  | Some (os_NotExist _ _) => true
  | _ => false
  end.

(** Pointers to Go maps. *)
Definition loc := positive.

(** ** Logging (go.uber.org/zap), observability only *)

Inductive zap_Logger := zap_NewNop | zap_Named (name : string).

Inductive zap_Level := DebugLevel | InfoLevel.

Inductive zap_Field :=
  | zap_String (key val : string)
  | zap_Int (key : string) (val : nat).

Record log_entry := LogEntry {
  le_logger : string;
  le_level : zap_Level;
  le_msg : string;
  le_fields : list zap_Field
}.

(** ** The world: heap of maps, file system, pending failures, call trace *)

(** What the operating system answers to a call on a file it has found (or
    can create): success, or failure with [e] after [done] bytes were
    transferred ([done] only matters to a write). *)
Inductive outcome := Succeed | Fail (e : errno) (done : nat).

(** System calls on files, as issued by package os. *)
Inductive syscall :=
  | sys_open (name : string)
  | sys_openfile (name : string) (flag : N) (perm : N)
  | sys_read (name : string)
  | sys_write (name : string) (bytes : string)
  | sys_close (name : string).

Record World := mkWorld {
  heap : gmap loc (gmap string string);
  files : gmap string string;
  oracle : list outcome;
  trace : list syscall;
  logs : list log_entry
}.

Definition set_heap (f : gmap loc (gmap string string) → gmap loc (gmap string string))
    (w : World) : World :=
  mkWorld (f (heap w)) (files w) (oracle w) (trace w) (logs w).

Definition set_files (f : gmap string string → gmap string string) (w : World) : World :=
  mkWorld (heap w) (f (files w)) (oracle w) (trace w) (logs w).

Definition set_oracle (o : list outcome) (w : World) : World :=
  mkWorld (heap w) (files w) o (trace w) (logs w).

Definition record_call (c : syscall) (w : World) : World :=
  mkWorld (heap w) (files w) (oracle w) (trace w ++ [c]) (logs w).

(** ** A state monad over the world *)

Definition IO (A : Type) : Type := World → A * World.

Definition ret {A} (a : A) : IO A := λ w, (a, w).

Definition bind {A B} (k : A → IO B) (c : IO A) : IO B :=
  λ w, let '(a, w') := c w in k a w'.

#[global] Instance IO_ret : MRet IO := @ret.
#[global] Instance IO_bind : MBind IO := @bind.

Definition modify (f : World → World) : IO unit := λ w, (tt, f w).

Definition get_files : IO (gmap string string) := λ w, (files w, w).

(** ** Go maps on the heap *)

(** The content of the map [l] points to. *)
Definition deref (w : World) (l : loc) : gmap string string :=
  default ∅ (heap w !! l).

(** [map[string]string{}] and [make(map[string]string, n)]: a new empty map. *)
Definition map_make : IO loc :=
  λ w, let l := fresh (dom (heap w)) in (l, set_heap <[l := ∅]> w).

Definition map_load (l : loc) : IO (gmap string string) :=
  λ w, (deref w l, w).

(** [v, ok := m[k]]: the zero value and false when the key is missing. *)
Definition map_index (l : loc) (k : string) : IO (string * bool) :=
  d ← map_load l;
  ret (match d !! k with Some v => (v, true) | None => (EmptyString, false) end).

(** [m[k] = v] *)
Definition map_assign (l : loc) (k v : string) : IO unit :=
  λ w, (tt, set_heap <[l := <[k := v]> (deref w l)]> w).

(** [delete(m, k)] *)
Definition map_delete (l : loc) (k : string) : IO unit :=
  λ w, (tt, set_heap <[l := delete k (deref w l)]> w).

(** ** Package os *)

Definition O_WRONLY : N := 1.
Definition O_CREATE : N := 64.
Definition O_TRUNC : N := 512.

(** The octal 0660. *)
Definition perm_0660 : N := 432.

Definition has_flag (flag bit : N) : bool := N.eqb (N.land flag bit) bit.

Record os_File := File { f_name : string }.

(** The next answer of the operating system; it succeeds once the oracle is
    exhausted. *)
Definition next_outcome : IO outcome :=
  λ w, (hd Succeed (oracle w), set_oracle (tail (oracle w)) w).

(** The result [(f, err)] of an open is a sum: exactly one of the two is
    non-nil.

    [os.Open(name)]: read-only.  A name with no file fails with ENOENT;
    otherwise the call succeeds unless the system fails it. *)
Definition os_Open (name : string) : IO (error + os_File) :=
  modify (record_call (sys_open name));;
  fs ← get_files;
  match fs !! name with
  | None => ret (inl (os_NotExist "open" name))
  | Some _ =>
      o ← next_outcome;
      match o with
      | Succeed => ret (inr (File name))
      | Fail e _ => ret (inl (os_PathError "open" name e))
      end
  end.

(** [os.OpenFile(name, flag, perm)] for writing: O_CREATE creates a missing
    file, O_TRUNC empties an existing one; a failing call leaves the file
    system as it was. *)
Definition os_OpenFile (name : string) (flag perm : N) : IO (error + os_File) :=
  modify (record_call (sys_openfile name flag perm));;
  fs ← get_files;
  match fs !! name, has_flag flag O_CREATE with
  | None, false => ret (inl (os_NotExist "open" name))
  | present, _ =>
      o ← next_outcome;
      match o with
      | Fail e _ => ret (inl (os_PathError "open" name e))
      | Succeed =>
          modify (set_files (λ fs,
            match present with
            | None => <[name := EmptyString]> fs
            | Some _ => if has_flag flag O_TRUNC then <[name := EmptyString]> fs else fs
            end));;
          ret (inr (File name))
      end
  end.

(** Appending at the offset of a handle that wrote everything the file holds
    (the handle of a file opened with O_TRUNC). *)
Definition append_file (name bytes : string) (w : World) : World :=
  set_files (λ fs, match fs !! name with
                   | Some c => <[name := c +:+ bytes]> fs
                   | None => fs
                   end) w.

(** [f.Write(bytes)]: a failing write may have transferred a prefix. *)
Definition File_Write (f : os_File) (bytes : string) : IO (option error) :=
  modify (record_call (sys_write (f_name f) bytes));;
  o ← next_outcome;
  match o with
  | Succeed => modify (append_file (f_name f) bytes);; ret None
  | Fail e done =>
      modify (append_file (f_name f) (String.substring 0 done bytes));;
      ret (Some (os_PathError "write" (f_name f) e))
  end.

(** Reading the file through to its end. *)
Definition File_ReadAll (f : os_File) : IO (string * option error) :=
  modify (record_call (sys_read (f_name f)));;
  o ← next_outcome;
  match o with
  | Succeed => fs ← get_files; ret (default EmptyString (fs !! f_name f), None)
  | Fail e _ => ret (EmptyString, Some (os_PathError "read" (f_name f) e))
  end.

(** [f.Close()] *)
Definition File_Close (f : os_File) : IO (option error) :=
  modify (record_call (sys_close (f_name f)));;
  o ← next_outcome;
  match o with
  | Succeed => ret None
  | Fail e _ => ret (Some (os_PathError "close" (f_name f) e))
  end.

(** ** Package zap *)

(** The entries a logger adds to the log: none for the no-op logger. *)
Definition emit (lg : option zap_Logger) (lvl : zap_Level) (msg : string)
    (fields : list zap_Field) (ls : list log_entry) : list log_entry :=
  match lg with
  | Some (zap_Named n) => ls ++ [LogEntry n lvl msg fields]
  | _ => ls
  end.

(** [logger.Debug(msg, fields...)] and [logger.Info(msg, fields...)] *)
Definition Logger_log (lg : option zap_Logger) (lvl : zap_Level) (msg : string)
    (fields : list zap_Field) : IO unit :=
  modify (λ w, mkWorld (heap w) (files w) (oracle w) (trace w)
                 (emit lg lvl msg fields (logs w))).

(** ** The store *)

(** [sync.RWMutex]; its zero value is unlocked. *)
Record sync_RWMutex := RWMutex { rw_writer : bool; rw_readers : nat }.

Record memory := mkMemory {
  path : string;
  logger : option zap_Logger;
  mu : sync_RWMutex;
  data : option loc
}.

Definition set_logger (lg : option zap_Logger) (m : memory) : memory :=
  mkMemory (path m) lg (mu m) (data m).

Definition set_data (d : option loc) (m : memory) : memory :=
  mkMemory (path m) (logger m) (mu m) d.

(** An [Option] is a function on the (pointer to the) store that may fail. *)
Definition Option : Type := memory → memory * option error.

Definition WithLogger (logger : option zap_Logger) : Option :=
  λ memory, (set_logger logger memory, None).

(** [for _, opt := range opts { err := opt(memory); if err != nil { return nil, err } }] *)
Fixpoint apply_opts (opts : list Option) (m : memory) : memory * option error :=
  match opts with
  | [] => (m, None)
  | opt :: opts =>
      match opt m with
      | (m, Some err) => (m, Some err)
      | (m, None) => apply_opts opts m
      end
  end.

(** [len(m)], 0 on a nil map. *)
Definition map_len (v : option loc) : IO nat :=
  match v with
  | None => ret 0
  | Some l => d ← map_load l; ret (size d)
  end.

(** [for k, v := range src { body(k, v) }] over the entries in the order
    [kvs]. *)
Fixpoint for_range (kvs : list (string * string)) (body : string → string → IO unit)
    : IO unit :=
  match kvs with
  | [] => ret tt
  | (k, v) :: kvs => body k v;; for_range kvs body
  end.

Definition newline : string := String (Ascii.ascii_of_nat 10) EmptyString.

Definition err_shut_down : error := errors_New "brain was already shut down".
Definition err_closed : error := errors_New "brain was already closed".

(** Get returns the value that is associated with the given key. *)
Definition Get (m : memory) (key : string) : IO (string * bool * option error) :=
  match data m with
  | None => ret (EmptyString, false, Some err_shut_down)
  | Some l =>
      '(value, ok) ← map_index l key;
      ret (value, ok, None)
  end.

(** Memories returns a copy of all known key-value pairs of this memory. *)
Definition Memories (m : memory) : IO (option loc * option error) :=
  match data m with
  | None => ret (None, Some err_shut_down)
  | Some l =>
      d ← map_load l;
      data ← map_make;
      for_range (map_to_list d) (λ k v, map_assign data k v);;
      ret (Some data, None)
  end.

(** Close removes all data from the memory; it returns the receiver as the
    call leaves it. *)
Definition Close (m : memory) : IO (memory * option error) :=
  match data m with
  | None => ret (m, Some err_closed)
  | Some _ => ret (set_data None m, None)
  end.

Section Codec.

(** Package encoding/json on values of type [map[string]string] (a map or
    nil): [json_Marshal v] is the text [json.Marshal] produces, and
    [json_Unmarshal s] what a decoder makes of a stream holding [s]: an
    error, the JSON null ([None]) or the entries of an object. *)
Variable json_Marshal : option (gmap string string) → string.
Variable json_Unmarshal : string → error + option (gmap string string).

(** [json.NewEncoder(f).Encode(v)]: the text and a newline, in one write. *)
Definition Encoder_Encode (f : os_File) (v : option loc) : IO (option error) :=
  d ← match v with
      | None => ret None
      | Some l => d ← map_load l; ret (Some d)
      end;
  File_Write f (json_Marshal d +:+ newline).

(** [json.NewDecoder(f).Decode(&v)]: returns the new value of [v].  A null
    sets [v] to nil; an object is stored into the map [v] points to (into a
    new map when [v] is nil), keeping the entries it has. *)
Definition Decoder_Decode (f : os_File) (v : option loc)
    : IO (option loc * option error) :=
  '(bytes, err) ← File_ReadAll f;
  match err with
  | Some e => ret (v, Some e)
  | None =>
      match json_Unmarshal bytes with
      | inl e => ret (v, Some e)
      | inr None => ret (None, None)
      | inr (Some entries) =>
          l ← match v with Some l => ret l | None => map_make end;
          modify (λ w, set_heap <[l := entries ∪ deref w l]> w);;
          ret (Some l, None)
      end
  end.

Definition persist (m : memory) : IO (option error) :=
  r ← os_OpenFile (path m) (N.lor (N.lor O_WRONLY O_CREATE) O_TRUNC) perm_0660;
  match r with
  | inl err => ret (Some (errors_Wrap err "failed to open file to persist data"))
  | inr f =>
      err ← Encoder_Encode f (data m);
      match err with
      | Some err =>
          File_Close f;;
          ret (Some (errors_Wrap err "failed to encode data as JSON"))
      | None =>
          err ← File_Close f;
          match err with
          | Some err =>
              ret (Some (errors_Wrap err
                "failed to close file; data might not have been fully persisted to disk"))
          | None => ret None
          end
      end
  end.

(** NewMemory creates a new Memory instance that persists all values to the
    given path. *)
Definition NewMemory (path : string) (opts : list Option)
    : IO (option memory * option error) :=
  l ← map_make;
  let memory := mkMemory path None (RWMutex false 0) (Some l) in
  match apply_opts opts memory with
  | (_, Some err) => ret (None, Some err)
  | (memory, None) =>
      let memory :=
        match logger memory with
        | None => set_logger (Some zap_NewNop) memory
        | Some _ => memory
        end in
      let initialized memory :=
        n ← map_len (data memory);
        Logger_log (logger memory) InfoLevel "Memory initialized successfully"
          [zap_String "path" path; zap_Int "num_memories" n];;
        ret (Some memory, None) in
      Logger_log (logger memory) DebugLevel "Opening memory file"
        [zap_String "path" path];;
      r ← os_Open path;
      match r with
      | inl err =>
          if os_IsNotExist (Some err) then
            Logger_log (logger memory) DebugLevel
              "File does not exist. Continuing with empty memory"
              [zap_String "path" path];;
            initialized memory
          else ret (None, Some (errors_Wrap err "failed to open file"))
      | inr f =>
          Logger_log (logger memory) DebugLevel "Decoding JSON from memory file"
            [zap_String "path" path];;
          '(data, err) ← Decoder_Decode f (data memory);
          File_Close f;;
          match err with
          | Some err => ret (None, Some (errors_Wrap err "failed decode data as JSON"))
          | None => initialized (set_data data memory)
          end
      end
  end.

(** Set assign the key to the value and then saves the updated memory to its
    JSON file. *)
Definition Set_ (m : memory) (key value : string) : IO (option error) :=
  match data m with
  | None => ret (Some err_shut_down)
  | Some l =>
      map_assign l key value;;
      persist m
  end.

(** Delete removes any value that might have been assigned to the key
    earlier.  If the memory did not contain the key the function does
    nothing and returns without an error. *)
Definition Delete (m : memory) (key : string) : IO (bool * option error) :=
  match data m with
  | None => ret (false, Some err_shut_down)
  | Some l =>
      '(_, ok) ← map_index l key;
      if negb ok then ret (false, None)
      else
        map_delete l key;;
        err ← persist m;
        ret (ok, err)
  end.

End Codec.

(** The [Delete] of [src/memory.go], which has no branch for a missing key:
    it deletes and persists whatever the lookup found. *)
Module MemoryGo.
Section Codec.

Variable json_Marshal : option (gmap string string) → string.

Definition Delete (m : memory) (key : string) : IO (bool * option error) :=
  match data m with
  | None => ret (false, Some err_shut_down)
  | Some l =>
      '(_, ok) ← map_index l key;
      map_delete l key;;
      err ← persist json_Marshal m;
      ret (ok, err)
  end.

End Codec.
End MemoryGo.

(** Modelled from the spec: the method [Keys] of the store.  The tests call
    it and the change log announces its sorted output, but no revision of
    the sources at hand defines it.  Following sections 4.5 and 8 of the
    specification it fails on a closed store like the other methods, and
    otherwise returns every key of the mapping, sorted lexicographically
    (bytewise, the order of Go's string comparison). *)
Definition Keys (m : memory) : IO (list string * option error) :=
  match data m with
  | None => ret ([], Some err_shut_down)
  | Some l =>
      d ← map_load l;
      ret (merge_sort String.le (map_to_list d).*1, None)
  end.

(** ** Calls on a store, and sequences of them *)

Inductive call :=
  | CallGet (key : string)
  | CallSet (key value : string)
  | CallDelete (key : string)
  | CallMemories
  | CallKeys
  | CallClose.

Inductive reply :=
  | ReplyGet (value : string) (ok : bool) (err : option error)
  | ReplySet (err : option error)
  | ReplyDelete (ok : bool) (err : option error)
  | ReplyMemories (copy : option loc) (err : option error)
  | ReplyKeys (keys : list string) (err : option error)
  | ReplyClose (err : option error).

Definition reply_err (r : reply) : option error :=
  match r with
  | ReplyGet _ _ err | ReplySet err | ReplyDelete _ err
  | ReplyMemories _ err | ReplyKeys _ err | ReplyClose err => err
  end.

(** The two revisions of the package. *)
Inductive revision := Documented | MemoryGoFile.

Section Calls.

Variable json_Marshal : option (gmap string string) → string.
Variable rev : revision.

Definition Delete_of : memory → string → IO (bool * option error) :=
  match rev with
  | Documented => Delete json_Marshal
  | MemoryGoFile => MemoryGo.Delete json_Marshal
  end.

(** One call on the store [m]; the store is returned as the call leaves it. *)
Definition invoke (m : memory) (c : call) : IO (memory * reply) :=
  match c with
  | CallGet key =>
      '(value, ok, err) ← Get m key; ret (m, ReplyGet value ok err)
  | CallSet key value =>
      err ← Set_ json_Marshal m key value; ret (m, ReplySet err)
  | CallDelete key =>
      '(ok, err) ← Delete_of m key; ret (m, ReplyDelete ok err)
  | CallMemories =>
      '(copy, err) ← Memories m; ret (m, ReplyMemories copy err)
  | CallKeys =>
      '(keys, err) ← Keys m; ret (m, ReplyKeys keys err)
  | CallClose =>
      '(m, err) ← Close m; ret (m, ReplyClose err)
  end.

Fixpoint invoke_all (m : memory) (cs : list call) : IO (memory * list reply) :=
  match cs with
  | [] => ret (m, [])
  | c :: cs =>
      '(m, r) ← invoke m c;
      '(m, rs) ← invoke_all m cs;
      ret (m, r :: rs)
  end.

End Calls.

(** ** A JSON codec to run the store with

    An executable instance of the codec parameters: objects with string keys
    and string values, keys in sorted order, the escapes of the quote, the
    backslash and the newline, and [null].  Like a Go decoder it reads one
    value and leaves what follows it in the stream. *)
Module Json.

Definition dquote : Ascii.ascii := Ascii.ascii_of_nat 34.
Definition backslash : Ascii.ascii := Ascii.ascii_of_nat 92.
Definition lbrace : Ascii.ascii := Ascii.ascii_of_nat 123.
Definition rbrace : Ascii.ascii := Ascii.ascii_of_nat 125.
Definition colon : Ascii.ascii := Ascii.ascii_of_nat 58.
Definition comma : Ascii.ascii := Ascii.ascii_of_nat 44.
Definition letter_n : Ascii.ascii := Ascii.ascii_of_nat 110.
Definition linefeed : Ascii.ascii := Ascii.ascii_of_nat 10.

Definition is_space (c : Ascii.ascii) : bool :=
  bool_decide (Ascii.nat_of_ascii c ∈ [32; 9; 10; 13]).

Definition snoc (s : string) (c : Ascii.ascii) : string := s +:+ String c EmptyString.

Fixpoint escape (s : string) : string :=
  match s with
  | EmptyString => EmptyString
  | String c s =>
      if bool_decide (c = dquote ∨ c = backslash) then String backslash (String c (escape s))
      else if bool_decide (c = linefeed) then String backslash (String letter_n (escape s))
      else String c (escape s)
  end.

Definition quote (s : string) : string := String dquote (snoc (escape s) dquote).

Definition member (kv : string * string) : string :=
  quote kv.1 +:+ String colon (quote kv.2).

Definition Marshal (v : option (gmap string string)) : string :=
  match v with
  | None => "null"
  | Some d =>
      String lbrace
        (snoc (String.concat (String comma EmptyString)
                 (member <$> merge_sort (λ a b, String.le a.1 b.1) (map_to_list d)))
              rbrace)
  end.

Inductive state :=
  | Start
  | KeyOrEnd (acc : gmap string string)
  | Key (acc : gmap string string)
  | InKey (acc : gmap string string) (k : string) (esc : bool)
  | Colon (acc : gmap string string) (k : string)
  | Value (acc : gmap string string) (k : string)
  | InValue (acc : gmap string string) (k v : string) (esc : bool)
  | CommaOrEnd (acc : gmap string string).

Definition unescape (c : Ascii.ascii) : option Ascii.ascii :=
  if bool_decide (c = dquote ∨ c = backslash) then Some c
  else if bool_decide (c = letter_n) then Some linefeed
  else None.

Definition bad (msg : string) : error + option (gmap string string) :=
  inl (json_SyntaxError msg).

Fixpoint parse (st : state) (s : string) : error + option (gmap string string) :=
  match s with
  | EmptyString => bad "unexpected end of JSON input"
  | String c s' =>
      match st with
      | Start =>
          if is_space c then parse Start s'
          else if bool_decide (c = lbrace) then parse (KeyOrEnd ∅) s'
          else if String.prefix "null" s then inr None
          else bad "invalid character looking for beginning of value"
      | KeyOrEnd acc =>
          if is_space c then parse st s'
          else if bool_decide (c = rbrace) then inr (Some acc)
          else if bool_decide (c = dquote) then parse (InKey acc EmptyString false) s'
          else bad "invalid character looking for beginning of object key string"
      | Key acc =>
          if is_space c then parse st s'
          else if bool_decide (c = dquote) then parse (InKey acc EmptyString false) s'
          else bad "invalid character looking for beginning of object key string"
      | InKey acc k true =>
          match unescape c with
          | Some c => parse (InKey acc (snoc k c) false) s'
          | None => bad "invalid character in string escape code"
          end
      | InKey acc k false =>
          if bool_decide (c = backslash) then parse (InKey acc k true) s'
          else if bool_decide (c = dquote) then parse (Colon acc k) s'
          else parse (InKey acc (snoc k c) false) s'
      | Colon acc k =>
          if is_space c then parse st s'
          else if bool_decide (c = colon) then parse (Value acc k) s'
          else bad "invalid character after object key"
      | Value acc k =>
          if is_space c then parse st s'
          else if bool_decide (c = dquote) then parse (InValue acc k EmptyString false) s'
          else bad "cannot unmarshal value into Go value of type string"
      | InValue acc k v true =>
          match unescape c with
          | Some c => parse (InValue acc k (snoc v c) false) s'
          | None => bad "invalid character in string escape code"
          end
      | InValue acc k v false =>
          if bool_decide (c = backslash) then parse (InValue acc k v true) s'
          else if bool_decide (c = dquote) then parse (CommaOrEnd (<[k := v]> acc)) s'
          else parse (InValue acc k (snoc v c) false) s'
      | CommaOrEnd acc =>
          if is_space c then parse st s'
          else if bool_decide (c = comma) then parse (Key acc) s'
          else if bool_decide (c = rbrace) then inr (Some acc)
          else bad "invalid character after object key:value pair"
      end
  end.

Definition Unmarshal (s : string) : error + option (gmap string string) :=
  parse Start s.

End Json.

(** ** Notions the properties are stated with *)

(** The store's mapping: the content of the map [data] points to, nothing
    once the store is closed. *)
Definition mapping (w : World) (m : memory) : option (gmap string string) :=
  (λ l, deref w l) <$> data m.

(** The store is open on a map that the heap holds. *)
Definition open_on (w : World) (m : memory) (l : loc) : Prop :=
  data m = Some l ∧ is_Some (heap w !! l).

(** The text a persist of the store writes. *)
Definition written (json_Marshal : option (gmap string string) → string)
    (m : memory) (w : World) : string :=
  json_Marshal (mapping w m) +:+ newline.

(** The decoder reads the mapping [d] back from the text the encoder writes
    for it. *)
Definition reads_back (json_Marshal : option (gmap string string) → string)
    (json_Unmarshal : string → error + option (gmap string string))
    (d : gmap string string) : Prop :=
  json_Unmarshal (json_Marshal (Some d) +:+ newline) = inr (Some d).

(** The errors of a closed store. *)
Definition is_closed_error (err : option error) : Prop :=
  err = Some err_shut_down ∨ err = Some err_closed.

(** What each call answers on a closed store. *)
Definition closed_reply (c : call) : reply :=
  match c with
  | CallGet _ => ReplyGet EmptyString false (Some err_shut_down)
  | CallSet _ _ => ReplySet (Some err_shut_down)
  | CallDelete _ => ReplyDelete false (Some err_shut_down)
  | CallMemories => ReplyMemories None (Some err_shut_down)
  | CallKeys => ReplyKeys [] (Some err_shut_down)
  | CallClose => ReplyClose (Some err_closed)
  end.

(** The mutating calls: a set, and the delete of a key the mapping has. *)
Definition mutating (d : gmap string string) (c : call) : Prop :=
  match c with
  | CallSet _ _ => True
  | CallDelete key => is_Some (d !! key)
  | _ => False
  end.

(** The calls that reach a persist even on an empty mapping: a set, and in
    the revision of [src/memory.go] a delete. *)
Definition persists (rev : revision) (c : call) : bool :=
  match c, rev with
  | CallSet _ _, _ => true
  | CallDelete _, MemoryGoFile => true
  | _, _ => false
  end.

(** The calls that only read a file. *)
Definition reads_only (c : syscall) : bool :=
  match c with
  | sys_open _ | sys_read _ | sys_close _ => true
  | sys_openfile _ _ _ | sys_write _ _ => false
  end.

(** The system fails none of the next [n] calls. *)
Definition quiet (n : nat) (w : World) : Prop :=
  Forall (λ o, o = Succeed) (take n (oracle w)).

(** Setting pairs one after the other, as the tests do; the errors are
    collected. *)
Fixpoint Set_all (json_Marshal : option (gmap string string) → string)
    (m : memory) (kvs : list (string * string)) : IO (list (option error)) :=
  match kvs with
  | [] => ret []
  | (k, v) :: kvs =>
      err ← Set_ json_Marshal m k v;
      errs ← Set_all json_Marshal m kvs;
      ret (err :: errs)
  end.

(** The mapping that setting [kvs] in turn makes of [d]. *)
Definition assign_all (kvs : list (string * string)) (d : gmap string string)
    : gmap string string :=
  foldl (λ d kv, <[kv.1 := kv.2]> d) d kvs.

(** The store is closed, or open on an empty mapping, and the files are
    [fs]. *)
Definition pristine (fs : gmap string string) (m : memory) (w : World) : Prop :=
  files w = fs ∧ (data m = None ∨ ∃ l, data m = Some l ∧ heap w !! l = Some ∅).

(** A world with nothing in it, and the path the examples use. *)
Definition empty_world : World := mkWorld ∅ ∅ [] [] [].
Definition joe_json : string := "/tmp/joe.json".

(** The store that [NewMemory] makes of the empty world, and the world it
    leaves. *)
Definition store0 : memory :=
  mkMemory joe_json (Some zap_NewNop) (RWMutex false 0) (Some 1%positive).
Definition world0 : World := mkWorld {[1%positive := ∅]} ∅ [] [sys_open joe_json] [].

(** A world whose only file, at the path of the examples, holds [text], and
    where the system answers the next calls with [o]. *)
Definition world_with (text : string) (o : list outcome) : World :=
  mkWorld ∅ {[joe_json := text]} o [] [].

Definition broken_json : string := "{broken".

(** ** Registration with the bot (package joe) *)

(** [joe.Config] as [src/memory.go] uses it: the fields [Logger] and
    [Memory]. *)
Record joe_Config := mkConfig {
  Config_Logger : option zap_Logger;
  Config_Memory : option memory
}.

Section Registration.

Variable json_Unmarshal : string → error + option (gmap string string).

(** The method [Named] of a zap logger. *)
Variable Logger_Named : zap_Logger → string → zap_Logger.

(** [MemoryOption] of [src/memory.go]: the function it returns, applied to
    the configuration; the configuration is returned as the call leaves it. *)
Definition MemoryOption (path : string) (conf : joe_Config)
    : IO (joe_Config * option error) :=
  let opts :=
    match Config_Logger conf with
    | Some lg => [WithLogger (Some (Logger_Named lg "memory"))]
    | None => []
    end in
  '(memory, err) ← NewMemory json_Unmarshal path opts;
  match err with
  | Some err => ret (conf, Some err)
  | None => ret (mkConfig (Config_Logger conf) memory, None)
  end.

(** The configuration of the documented revision is used through two
    methods: [conf.Logger(name)] and [conf.SetMemory(memory)]. *)
Variable Config : Type.
Variable Config_Logger_named : Config → string → option zap_Logger.
Variable Config_SetMemory : option memory → Config → Config.

(** Memory is a joe.Option which is supposed to be passed to joe.New to
    configure a new bot. *)
Definition Memory (path : string) (conf : Config) : IO (Config * option error) :=
  '(memory, err) ← NewMemory json_Unmarshal path
                     [WithLogger (Config_Logger_named conf "memory")];
  match err with
  | Some err => ret (conf, Some err)
  | None => ret (Config_SetMemory memory conf, None)
  end.

End Registration.

(** The flags and the permissions [persist] opens the file with. *)
Definition persist_flags : N := N.lor (N.lor O_WRONLY O_CREATE) O_TRUNC.

(** The three calls of a persist that got its file open. *)
Definition persist_calls (name text : string) : list syscall :=
  [sys_openfile name persist_flags perm_0660; sys_write name text; sys_close name].

(** An option that fails with [err] on every store. *)
Definition fails_with (err : error) (opt : Option) : Prop :=
  ∀ m, (opt m).2 = Some err.

(** A world where the store of the examples holds "foo", over a file with
    other contents, and where the system answers the next calls with [o]. *)
Definition world1 (o : list outcome) : World :=
  mkWorld {[1%positive := {["foo" := "bar"]}]} {[joe_json := "previous contents"]} o [] [].

(** The logger the options leave the store with: the last one given, and
    the no-op logger when none was given or the last one is nil. *)
Definition chosen_logger (lgs : list (option zap_Logger)) : zap_Logger :=
  match last lgs with
  | Some (Some lg) => lg
  | _ => zap_NewNop
  end.

(** The entry that ends the log of a successful construction. *)
Definition initialized_entry (n p : string) (num : nat) : log_entry :=
  LogEntry n InfoLevel "Memory initialized successfully"
    [zap_String "path" p; zap_Int "num_memories" num].

(** The text of a file that holds "foo". *)
Definition foo_bar_json : string :=
  Json.Marshal (Some {["foo" := "bar"]}) +:+ newline.

(** An option that always fails. *)
Definition bad_option : Option := λ m, (m, Some (errors_New "bad option")).

(** A model of the method [Named] of a zap logger, for the examples: the
    names are joined by a period, and the no-op logger stays what it is. *)
Definition Named_dotted (lg : zap_Logger) (name : string) : zap_Logger :=
  match lg with
  | zap_NewNop => zap_NewNop
  | zap_Named n => zap_Named (n +:+ "." +:+ name)
  end.

(** The methods of the configuration of the documented revision, on
    [joe_Config], for the examples. *)
Definition Config_logger_of (conf : joe_Config) (name : string) : option zap_Logger :=
  (λ lg, Named_dotted lg name) <$> Config_Logger conf.

Definition Config_set_memory (memory : option memory) (conf : joe_Config) : joe_Config :=
  mkConfig (Config_Logger conf) memory.

(** * Proofs *)

Ltac io_unfold :=
  unfold Set_, Delete, MemoryGo.Delete, Get, Memories, Close, Keys, persist,
    Encoder_Encode, Decoder_Decode, os_OpenFile, os_Open, File_Write,
    File_ReadAll, File_Close, next_outcome, map_index, map_load, map_assign,
    map_delete, map_make, map_len, Logger_log, get_files, modify,
    mbind, mret, IO_bind, IO_ret, bind, ret in *.

Ltac io_cases := io_unfold; cbn in *; repeat (case_match; cbn in *); simplify_eq/=.

Lemma bind_run {A B} (c : IO A) (k : A → IO B) (w : World) :
  (c ≫= k) w = k (c w).1 (c w).2.
Proof. unfold mbind, IO_bind, bind. by destruct (c w). Qed.

Lemma deref_heap w w' l : heap w' = heap w → deref w' l = deref w l.
Proof. unfold deref. by intros ->. Qed.

Lemma deref_lookup w l d : heap w !! l = Some d → deref w l = d.
Proof. unfold deref. by intros ->. Qed.

Lemma mapping_heap w w' m : heap w' = heap w → mapping w' m = mapping w m.
Proof. unfold mapping. intros H. destruct (data m); simpl; [|done]. by rewrite (deref_heap _ _ _ H). Qed.

Section Persist.

Variable json_Marshal : option (gmap string string) → string.

(** What a persist does to the world, whatever the system answers: it
    leaves the heap and every other file alone, and when it returns nil the
    file holds the text of the mapping and nothing else. *)
Lemma persist_spec m w :
  let '(err, w') := persist json_Marshal m w in
  heap w' = heap w ∧ logs w' = logs w ∧
  (∀ p, p ≠ path m → files w' !! p = files w !! p) ∧
  (err = None → files w' !! path m = Some (written json_Marshal m w)) ∧
  (∃ cs, trace w' =
     trace w ++ sys_openfile (path m) (N.lor (N.lor O_WRONLY O_CREATE) O_TRUNC) perm_0660 :: cs).
Proof.
  destruct w as [h fs o t lg]. unfold written, mapping, append_file.
  io_cases.
  all: repeat split; try done; try (intros; by simplify_map_eq).
  all: eexists; rewrite <- ?app_assoc; simpl; reflexivity.
Qed.

Lemma persist_heap m w : heap (persist json_Marshal m w).2 = heap w.
Proof. pose proof (persist_spec m w) as H. destruct (persist _ m w). apply H. Qed.

Lemma persist_ok m w w' :
  persist json_Marshal m w = (None, w') →
  files w' !! path m = Some (written json_Marshal m w).
Proof. intros E. pose proof (persist_spec m w) as H. rewrite E in H. by apply H. Qed.

(** [Set] on an open store: the assignment, then the persist. *)
Lemma Set_run m l key value w :
  data m = Some l →
  Set_ json_Marshal m key value w =
    persist json_Marshal m (set_heap <[l := <[key := value]> (deref w l)]> w).
Proof. intros E. unfold Set_. by rewrite E. Qed.

Lemma Set_mapping m l key value w :
  data m = Some l →
  let w' := (Set_ json_Marshal m key value w).2 in
  heap w' = <[l := <[key := value]> (deref w l)]> (heap w).
Proof. intros E. simpl. rewrite (Set_run _ l) by done. by rewrite persist_heap. Qed.

Lemma Get_run m l key w :
  data m = Some l →
  Get m key w =
    (match deref w l !! key with
     | Some v => (v, true, None)
     | None => (EmptyString, false, None)
     end, w).
Proof. intros E. io_unfold. rewrite E. cbn. by destruct (deref w l !! key). Qed.

(** The documented [Delete] of a key the mapping does not have: nothing
    happens. *)
Lemma Delete_absent m l key w :
  data m = Some l → deref w l !! key = None →
  Delete json_Marshal m key w = ((false, None), w).
Proof. intros E Hk. io_unfold. rewrite E. cbn. by rewrite Hk. Qed.

Lemma Delete_present m l key w :
  data m = Some l → is_Some (deref w l !! key) →
  Delete json_Marshal m key w =
    let '(err, w') := persist json_Marshal m (set_heap <[l := delete key (deref w l)]> w) in
    ((true, err), w').
Proof.
  intros E [v Hk]. unfold Delete. rewrite E. unfold map_index, map_load.
  rewrite !bind_run. cbn. rewrite Hk. cbn.
  unfold map_delete. rewrite !bind_run. cbn.
  by destruct (persist _ _ _).
Qed.

Lemma MemoryGo_Delete_run m l key w :
  data m = Some l →
  MemoryGo.Delete json_Marshal m key w =
    let '(err, w') := persist json_Marshal m (set_heap <[l := delete key (deref w l)]> w) in
    ((match deref w l !! key with Some _ => true | None => false end, err), w').
Proof.
  intros E. unfold MemoryGo.Delete. rewrite E. unfold map_index, map_load, map_delete.
  rewrite !bind_run. cbn.
  destruct (deref w l !! key); cbn; rewrite !bind_run; cbn.
  all: by destruct (persist _ _ _).
Qed.

End Persist.

(** The state the examples start from is the one the constructor reaches. *)
Lemma NewMemory_empty_world :
  NewMemory Json.Unmarshal joe_json [] empty_world = ((Some store0, None), world0).
Proof. vm_compute. reflexivity. Qed.

(** ** Delete of a missing key *)

(** C1, on the documented revision: deleting a key the mapping does not have
    answers (false, nil) and leaves the whole world as it was: no system call
    is made, the file is not written, and no key changes its value. *)
Lemma Delete_absent_key_is_noop mar m l key w :
  data m = Some l → deref w l !! key = None →
  Delete mar m key w = ((false, None), w).
Proof. apply Delete_absent. Qed.

Lemma Delete_absent_key_is_noop_witness :
  data store0 = Some 1%positive ∧ deref world0 1%positive !! "foo" = None ∧
  Delete Json.Marshal store0 "foo" world0 = ((false, None), world0).
Proof.
  split; [reflexivity|]. split; [reflexivity|].
  apply (Delete_absent_key_is_noop Json.Marshal store0 1%positive); reflexivity.
Defined.

(** C1, on [src/memory.go]: the same delete, on the store just constructed
    over a path with no file, runs a persist.  It opens the file for
    writing, which creates it, writes the empty object and closes; and when
    the system refuses the open, the delete of the missing key returns that
    error. *)
Theorem MemoryGo_Delete_absent_key_persists :
  data store0 = Some 1%positive ∧ deref world0 1%positive !! "foo" = None ∧
  files world0 !! joe_json = None ∧
  (let '(r, w') := MemoryGo.Delete Json.Marshal store0 "foo" world0 in
   r = (false, None) ∧
   files w' !! joe_json = Some ("{}" +:+ newline) ∧
   trace w' = trace world0 ++
     [sys_openfile joe_json 577 432; sys_write joe_json ("{}" +:+ newline);
      sys_close joe_json]) ∧
  (MemoryGo.Delete Json.Marshal store0 "foo" (set_oracle [Fail EACCES 0] world0)).1 =
    (false, Some (errors_Wrap (os_PathError "open" joe_json EACCES)
                    "failed to open file to persist data")).
Proof. vm_compute. repeat split; reflexivity. Qed.

(** ** Set *)

(** C4: on an open store, Set is the assignment followed by the persist;
    whatever the persist returns, nil or an error, the mapping holds the new
    value afterwards and Get reads it: a failed Set is not rolled back. *)
Theorem Set_not_rolled_back mar m l key value w :
  data m = Some l →
  let '(err, w') := Set_ mar m key value w in
  (err, w') = persist mar m (map_assign l key value w).2 ∧
  deref w' l = <[key := value]> (deref w l) ∧
  Get m key w' = ((value, true, None), w').
Proof.
  intros E. pose proof (Set_mapping mar m l key value w E) as Hh.
  rewrite (Set_run mar m l) in * by done. cbn in Hh.
  destruct (persist mar m _) as [err w'] eqn:Hp. cbn in Hh.
  assert (deref w' l = <[key := value]> (deref w l)) as Hd.
  { apply deref_lookup. rewrite Hh. apply lookup_insert_eq. }
  split; [done|]. split; [done|].
  rewrite (Get_run m l) by done. by rewrite Hd, lookup_insert_eq.
Qed.

(** The system refuses the open for writing: Set returns the wrapped error,
    and Get answers the value that was set. *)
Lemma Set_not_rolled_back_witness :
  let w := set_oracle [Fail EACCES 0] world0 in
  data store0 = Some 1%positive ∧
  (Set_ Json.Marshal store0 "foo" "bar" w).1 =
    Some (errors_Wrap (os_PathError "open" joe_json EACCES)
            "failed to open file to persist data") ∧
  let '(err, w') := Set_ Json.Marshal store0 "foo" "bar" w in
  (err, w') = persist Json.Marshal store0 (map_assign 1%positive "foo" "bar" w).2 ∧
  deref w' 1%positive = <["foo" := "bar"]> (deref w 1%positive) ∧
  Get store0 "foo" w' = (("bar", true, None), w').
Proof.
  intros w. split; [reflexivity|]. split; [vm_compute; reflexivity|].
  apply (Set_not_rolled_back Json.Marshal store0 1%positive "foo" "bar" w).
  reflexivity.
Defined.

(** ** The file after a mutating call *)

(** C5: after a set, or the delete of a key that was present, that returned
    nil, the backing file holds the text of exactly the mapping the store has
    in memory; a decoder that reads this mapping back from its text finds it
    in the file. *)
Theorem file_equals_mapping_after_mutation mar unm rev m l c w :
  data m = Some l → mutating (deref w l) c →
  let '((m', r), w') := invoke mar rev m c w in
  reply_err r = None →
  m' = m ∧
  files w' !! path m = Some (mar (Some (deref w' l)) +:+ newline) ∧
  (reads_back mar unm (deref w' l) →
   ∃ text, files w' !! path m = Some text ∧ unm text = inr (Some (deref w' l))).
Proof.
  intros E Hc.
  assert (∀ w1 err w',
    persist mar m w1 = (err, w') → err = None →
    files w' !! path m = Some (mar (Some (deref w' l)) +:+ newline)) as Hfile.
  { intros w1 err w' Hp ->. rewrite (persist_ok _ _ _ _ Hp).
    unfold written, mapping. rewrite E. cbn.
    pose proof (persist_heap mar m w1) as Hh. rewrite Hp in Hh.
    by rewrite (deref_heap _ _ _ Hh). }
  assert (∀ w1 err w',
    persist mar m w1 = (err, w') → err = None →
    files w' !! path m = Some (mar (Some (deref w' l)) +:+ newline) ∧
    (reads_back mar unm (deref w' l) →
     ∃ text, files w' !! path m = Some text ∧ unm text = inr (Some (deref w' l)))) as Hboth.
  { intros w1 err w' Hp Herr. pose proof (Hfile _ _ _ Hp Herr) as Hf.
    split; [done|]. intros Hrb. eexists. split; [done|]. apply Hrb. }
  destruct c as [key|key value|key| | |]; try done; unfold invoke.
  - rewrite bind_run, (Set_run mar m l) by done.
    destruct (persist mar m _) as [err w'] eqn:Hp. cbn. intros ->.
    split; [done|]. by eapply Hboth.
  - rewrite bind_run. unfold Delete_of.
    destruct rev.
    + rewrite (Delete_present mar m l) by done.
      destruct (persist mar m _) as [err w'] eqn:Hp. cbn. intros ->.
      split; [done|]. by eapply Hboth.
    + rewrite (MemoryGo_Delete_run mar m l) by done.
      destruct (persist mar m _) as [err w'] eqn:Hp. cbn. intros ->.
      split; [done|]. by eapply Hboth.
Qed.

Lemma file_equals_mapping_witness :
  data store0 = Some 1%positive ∧
  mutating (deref world0 1%positive) (CallSet "foo" "bar") ∧
  let '((m', r), w') :=
    invoke Json.Marshal Documented store0 (CallSet "foo" "bar") world0 in
  reply_err r = None ∧
  reads_back Json.Marshal Json.Unmarshal (deref w' 1%positive) ∧
  files w' !! joe_json = Some ("{" +:+ String Json.dquote "foo" +:+ String Json.dquote ":"
    +:+ String Json.dquote "bar" +:+ String Json.dquote "}" +:+ newline) ∧
  (m' = store0 ∧
   files w' !! path store0 = Some (Json.Marshal (Some (deref w' 1%positive)) +:+ newline) ∧
   (reads_back Json.Marshal Json.Unmarshal (deref w' 1%positive) →
    ∃ text, files w' !! path store0 = Some text ∧
            Json.Unmarshal text = inr (Some (deref w' 1%positive)))).
Proof.
  split; [reflexivity|]. split; [exact I|].
  pose proof (file_equals_mapping_after_mutation Json.Marshal Json.Unmarshal
                Documented store0 1%positive (CallSet "foo" "bar") world0
                eq_refl I) as H.
  destruct (invoke Json.Marshal Documented store0 (CallSet "foo" "bar") world0)
    as [[m' r] w'] eqn:Hrun.
  vm_compute in Hrun. injection Hrun as <- <- <-.
  split; [reflexivity|]. split; [vm_compute; reflexivity|].
  split; [vm_compute; reflexivity|].
  apply H. reflexivity.
Defined.

(** ** Close *)

Section Closed.

Variable mar : option (gmap string string) → string.
Variable rev : revision.

Lemma invoke_closed m c w :
  data m = None → invoke mar rev m c w = ((m, closed_reply c), w).
Proof.
  intros E. destruct c; unfold invoke, Delete_of; rewrite bind_run.
  all: try destruct rev; io_unfold; rewrite ?E; cbn; done.
Qed.

Lemma invoke_all_closed m cs w :
  data m = None → invoke_all mar rev m cs w = ((m, closed_reply <$> cs), w).
Proof.
  intros E. induction cs as [|c cs IH]; [done|].
  cbn. rewrite bind_run, invoke_closed by done. cbn.
  rewrite bind_run, IH. done.
Qed.

Lemma closed_reply_error c : is_closed_error (reply_err (closed_reply c)).
Proof. destruct c; cbn; by (left + right). Qed.

End Closed.

(** Close never touches the world, whether it succeeds or not. *)
Lemma Close_world m w : (Close m w).2 = w.
Proof. unfold Close. by destruct (data m). Qed.

(** C3: once Close has returned nil, the store is closed for good.  Close
    left the world as it was (no file I/O); every later call, in any number
    and order, a second Close included, answers with the error of a closed
    store and leaves the store and the whole world (heap, files, trace of
    system calls) untouched. *)
Theorem closed_store_fails_every_call mar rev m w m' w' :
  Close m w = ((m', None), w') →
  w' = w ∧ data m' = None ∧
  ∀ cs, invoke_all mar rev m' cs w' = ((m', closed_reply <$> cs), w') ∧
        Forall (λ r, is_closed_error (reply_err r)) (closed_reply <$> cs).
Proof.
  intros Hc. pose proof (Close_world m w) as Hw. rewrite Hc in Hw. cbn in Hw.
  assert (data m' = None) as E.
  { unfold Close, ret in Hc. destruct (data m); [|discriminate Hc].
    by injection Hc as <- _. }
  split; [done|]. split; [done|]. intros cs. split.
  - by apply invoke_all_closed.
  - apply Forall_fmap, Forall_forall. intros c _. apply closed_reply_error.
Qed.

Lemma closed_store_fails_every_call_witness :
  Close store0 world0 = ((set_data None store0, None), world0) ∧
  (world0 = world0 ∧ data (set_data None store0) = None ∧
   ∀ cs, invoke_all Json.Marshal Documented (set_data None store0) cs world0 =
           ((set_data None store0, closed_reply <$> cs), world0) ∧
         Forall (λ r, is_closed_error (reply_err r)) (closed_reply <$> cs)).
Proof.
  split; [reflexivity|].
  apply (closed_store_fails_every_call Json.Marshal Documented store0 world0).
  reflexivity.
Defined.

(** ** Copies of the mapping *)

Lemma assign_all_nodup kvs (d : gmap string string) :
  NoDup kvs.*1 → assign_all kvs d = list_to_map kvs ∪ d.
Proof.
  unfold assign_all. revert d. induction kvs as [|[k v] kvs IH]; intros d Hnd.
  - cbn. by rewrite (left_id_L ∅ (∪)).
  - apply NoDup_cons in Hnd as [Hk Hnd]. cbn. rewrite IH by done.
    rewrite <- insert_union_l. symmetry. apply insert_union_r.
    by apply not_elem_of_list_to_map_1.
Qed.

Lemma assign_all_map_to_list (d : gmap string string) :
  assign_all (map_to_list d) ∅ = d.
Proof.
  rewrite assign_all_nodup by apply NoDup_fst_map_to_list.
  by rewrite (right_id_L ∅ (∪)), list_to_map_to_list.
Qed.

Lemma set_heap_id w l d : heap w !! l = Some d → set_heap <[l := d]> w = w.
Proof. intros H. destruct w. unfold set_heap. cbn in *. by rewrite insert_id. Qed.

Lemma set_heap_twice w l d d' :
  set_heap <[l := d']> (set_heap <[l := d]> w) = set_heap <[l := d']> w.
Proof. destruct w. unfold set_heap. cbn. by rewrite insert_insert_eq. Qed.

Lemma deref_set_heap w l d : deref (set_heap <[l := d]> w) l = d.
Proof. unfold deref. cbn. by rewrite lookup_insert_eq. Qed.

Lemma deref_set_heap_ne w l l' d : l ≠ l' → deref (set_heap <[l' := d]> w) l = deref w l.
Proof. intros H. unfold deref. cbn. by rewrite lookup_insert_ne. Qed.

(** The copying loop: the entries are assigned one after the other. *)
Lemma for_range_assign l kvs w :
  is_Some (heap w !! l) →
  for_range kvs (λ k v, map_assign l k v) w =
    (tt, set_heap <[l := assign_all kvs (deref w l)]> w).
Proof.
  revert w. induction kvs as [|[k v] kvs IH]; intros w [d Hd].
  - cbn. rewrite set_heap_id; [done|]. by rewrite (deref_lookup _ _ _ Hd).
  - cbn [for_range]. rewrite bind_run. unfold map_assign at 1 2. cbn [fst snd].
    rewrite IH by (cbn; rewrite lookup_insert_eq; eauto).
    by rewrite deref_set_heap, set_heap_twice.
Qed.

Lemma Memories_run m l d w :
  data m = Some l → heap w !! l = Some d →
  Memories m w =
    ((Some (fresh (dom (heap w))), None), set_heap <[fresh (dom (heap w)) := d]> w).
Proof.
  intros E Hd. unfold Memories. rewrite E. unfold map_load, map_make.
  rewrite !bind_run. cbn [fst snd].
  rewrite for_range_assign by (cbn; rewrite lookup_insert_eq; eauto).
  cbn. rewrite deref_set_heap, set_heap_twice.
  by rewrite assign_all_map_to_list, (deref_lookup _ _ _ Hd).
Qed.

Lemma Keys_run m l w :
  data m = Some l →
  Keys m w = ((merge_sort String.le (map_to_list (deref w l)).*1, None), w).
Proof. intros E. unfold Keys. by rewrite E. Qed.

(** C8: on an open store Memories returns a new map, at a location the heap
    did not have, holding exactly the mapping; it touches neither the files
    nor the store's own map.  Whatever content the caller gives the returned
    map afterwards, the mapping of the store is what it was, and Get, Keys
    and Memories answer as before. *)
Theorem Memories_returns_a_copy m l d w :
  data m = Some l → heap w !! l = Some d →
  ∃ copy w',
    Memories m w = ((Some copy, None), w') ∧
    copy ≠ l ∧ heap w !! copy = None ∧ deref w' copy = d ∧
    w' = set_heap <[copy := d]> w ∧
    ∀ d', let w'' := set_heap <[copy := d']> w' in
      mapping w'' m = Some d ∧
      (∀ key, (Get m key w'').1 = (Get m key w).1) ∧
      (Keys m w'').1 = (Keys m w).1 ∧
      ∃ copy' w3, Memories m w'' = ((Some copy', None), w3) ∧ deref w3 copy' = d.
Proof.
  intros E Hd. set (copy := fresh (dom (heap w))).
  assert (heap w !! copy = None) as Hfresh.
  { apply not_elem_of_dom, is_fresh. }
  assert (copy ≠ l) as Hne by congruence.
  exists copy, (set_heap <[copy := d]> w).
  split; [by apply (Memories_run m l)|]. split; [done|]. split; [done|].
  split; [apply deref_set_heap|]. split; [done|].
  intros d'. cbn. rewrite set_heap_twice.
  assert (heap (set_heap <[copy := d']> w) !! l = Some d) as Hd'.
  { cbn. by rewrite lookup_insert_ne. }
  assert (deref (set_heap <[copy := d']> w) l = deref w l) as Hderef.
  { by rewrite (deref_lookup _ _ _ Hd'), (deref_lookup _ _ _ Hd). }
  split; [|split; [|split]].
  - unfold mapping. rewrite E. cbn. by rewrite (deref_lookup _ _ _ Hd').
  - intros key. rewrite !(Get_run m l) by done. cbn. by rewrite Hderef.
  - rewrite !(Keys_run m l) by done. cbn. by rewrite Hderef.
  - eexists _, _. split; [by apply (Memories_run m l)|]. apply deref_set_heap.
Qed.

(** The returned map is emptied and refilled by its caller; the store still
    answers "bar" for "foo". *)
Lemma Memories_returns_a_copy_witness :
  let w := (Set_ Json.Marshal store0 "foo" "bar" world0).2 in
  data store0 = Some 1%positive ∧ heap w !! 1%positive = Some {["foo" := "bar"]} ∧
  (Get store0 "foo"
     (map_assign 2%positive "foo" "changed" (Memories store0 w).2).2).1 = ("bar", true, None) ∧
  ∃ copy w',
    Memories store0 w = ((Some copy, None), w') ∧
    copy ≠ 1%positive ∧ heap w !! copy = None ∧ deref w' copy = {["foo" := "bar"]} ∧
    w' = set_heap <[copy := {["foo" := "bar"]}]> w ∧
    ∀ d', let w'' := set_heap <[copy := d']> w' in
      mapping w'' store0 = Some {["foo" := "bar"]} ∧
      (∀ key, (Get store0 key w'').1 = (Get store0 key w).1) ∧
      (Keys store0 w'').1 = (Keys store0 w).1 ∧
      ∃ copy' w3, Memories store0 w'' = ((Some copy', None), w3) ∧
                  deref w3 copy' = {["foo" := "bar"]}.
Proof.
  intros w. split; [reflexivity|]. split; [vm_compute; reflexivity|].
  split; [vm_compute; reflexivity|].
  apply (Memories_returns_a_copy store0 1%positive {["foo" := "bar"]} w).
  - reflexivity.
  - vm_compute. reflexivity.
Defined.

(** ** Keys *)

(** C2: on an open store Keys returns, without touching the world, a list
    that has exactly the keys of the mapping, each of them once, in
    lexicographic order. *)
Theorem Keys_sorted_each_key_once m l w :
  data m = Some l →
  ∃ ks, Keys m w = ((ks, None), w) ∧
    (∀ k, k ∈ ks ↔ is_Some (deref w l !! k)) ∧
    NoDup ks ∧ StronglySorted String.le ks.
Proof.
  intros E. eexists. split; [by apply Keys_run|].
  split; [|split].
  - intros k. rewrite merge_sort_Permutation, list_elem_of_fmap. split.
    + intros ([k' v] & -> & Hin). apply elem_of_map_to_list in Hin. by eexists.
    + intros [v Hv]. exists (k, v). split; [done|]. by apply elem_of_map_to_list.
  - rewrite merge_sort_Permutation. apply NoDup_fst_map_to_list.
  - apply (StronglySorted_merge_sort _).
Qed.

(** The keys of the test, set out of order. *)
Lemma Keys_sorted_each_key_once_witness :
  let w := (Set_all Json.Marshal store0
              [("foo2", "foo2 value"); ("foo3", "foo3 value"); ("foo1", "foo1 value")]
              world0).2 in
  data store0 = Some 1%positive ∧
  Keys store0 w = ((["foo1"; "foo2"; "foo3"], None), w) ∧
  ∃ ks, Keys store0 w = ((ks, None), w) ∧
    (∀ k, k ∈ ks ↔ is_Some (deref w 1%positive !! k)) ∧
    NoDup ks ∧ StronglySorted String.le ks.
Proof.
  intros w. split; [reflexivity|]. split; [vm_compute; reflexivity|].
  apply (Keys_sorted_each_key_once store0 1%positive w). reflexivity.
Defined.

(** ** What every call keeps *)

Section Kept.

Variable mar : option (gmap string string) → string.
Variable rev : revision.

(** No call changes the path, the logger or the mutex of the store: the
    methods never lock or unlock [mu]. *)
Lemma invoke_keeps_fields m c w :
  let m' := (invoke mar rev m c w).1.1 in
  path m' = path m ∧ logger m' = logger m ∧ mu m' = mu m.
Proof.
  destruct c; unfold invoke; rewrite bind_run; cbn.
  1-5: by repeat case_match.
  unfold Close. by destruct (data m).
Qed.

(** A store that is open on a map of the heap stays so until it is closed. *)
Lemma invoke_open_on m l c w :
  open_on w m l →
  let '((m', _), w') := invoke mar rev m c w in
  data m' = None ∨ open_on w' m' l.
Proof.
  intros [E [d Hd]]. unfold open_on.
  destruct c as [key|key value|key| | |]; unfold invoke, Delete_of; rewrite bind_run.
  - rewrite (Get_run m l) by done. cbn. destruct (deref w l !! key); cbn; eauto.
  - pose proof (Set_mapping mar m l key value w E) as Hh. cbn in Hh.
    destruct (Set_ mar m key value w) as [err w']. cbn in *.
    right. split; [done|]. rewrite Hh, lookup_insert_eq. eauto.
  - assert (∀ w1 err w',
      persist mar m (set_heap <[l := delete key (deref w l)]> w1) = (err, w') →
      is_Some (heap w' !! l)) as Hp.
    { intros w1 err w' Hrun. pose proof (persist_heap mar m
        (set_heap <[l := delete key (deref w l)]> w1)) as Hh.
      rewrite Hrun in Hh. cbn in Hh. rewrite Hh, lookup_insert_eq. eauto. }
    destruct rev.
    + destruct (deref w l !! key) as [v|] eqn:Hk.
      * rewrite (Delete_present mar m l) by (rewrite ?Hk; eauto).
        destruct (persist mar m _) as [err w'] eqn:Hrun. cbn. eauto.
      * rewrite (Delete_absent mar m l) by done. cbn. eauto.
    + rewrite (MemoryGo_Delete_run mar m l) by done.
      destruct (persist mar m _) as [err w'] eqn:Hrun. cbn. eauto.
  - rewrite (Memories_run m l d) by done. cbn. right. split; [done|].
    rewrite lookup_insert_ne; [eauto|].
    intros Heq. pose proof (is_fresh (dom (heap w))) as Hfresh.
    apply not_elem_of_dom in Hfresh. congruence.
  - rewrite (Keys_run m l) by done. cbn. eauto.
  - unfold Close. rewrite E. cbn. eauto.
Qed.

End Kept.

(** ** Construction *)

Lemma apply_opts_WithLogger lgs m :
  ∃ lg, apply_opts (WithLogger <$> lgs) m = (set_logger lg m, None).
Proof.
  revert m. induction lgs as [|lg lgs IH]; intros m.
  - exists (logger m). by destruct m.
  - cbn. destruct (IH (set_logger lg m)) as [lg' ->]. by exists lg'.
Qed.

Lemma quiet_two w :
  quiet 2 w → hd Succeed (oracle w) = Succeed ∧ hd Succeed (tail (oracle w)) = Succeed.
Proof.
  unfold quiet. destruct (oracle w) as [|o1 [|o2 os]]; cbn; [done|..].
  - by intros [-> _]%Forall_cons.
  - by intros [-> [-> _]%Forall_cons]%Forall_cons.
Qed.

#[local] Arguments emit : simpl never.

Section Construction.

Variable json_Unmarshal : string → error + option (gmap string string).

(** Every way [NewMemory] can go.  The files are never changed and the
    calls it makes only read; the result is decided by the file at the
    path, the answers of the system to the open and to the read, and the
    decoder. *)
Lemma NewMemory_spec p lgs w :
  let '(r, w') := NewMemory json_Unmarshal p (WithLogger <$> lgs) w in
  files w' = files w ∧
  (∃ cs, trace w' = trace w ++ sys_open p :: cs ∧ forallb reads_only cs = true) ∧
  let fresh_store (d : gmap string string) :=
    ∃ m l, r = (Some m, None) ∧ path m = p ∧ data m = Some l ∧
           heap w !! l = None ∧ heap w' !! l = Some d in
  match files w !! p with
  | None => fresh_store ∅
  | Some text =>
      match hd Succeed (oracle w) with
      | Fail e _ =>
          r = (None, Some (errors_Wrap (os_PathError "open" p e) "failed to open file"))
      | Succeed =>
          match hd Succeed (tail (oracle w)) with
          | Fail e _ =>
              r = (None, Some (errors_Wrap (os_PathError "read" p e)
                                 "failed decode data as JSON"))
          | Succeed =>
              match json_Unmarshal text with
              | inl e => r = (None, Some (errors_Wrap e "failed decode data as JSON"))
              | inr None => ∃ m, r = (Some m, None) ∧ path m = p ∧ data m = None
              | inr (Some d) => fresh_store d
              end
          end
      end
  end.
Proof.
  unfold NewMemory. rewrite bind_run. cbn.
  destruct (apply_opts_WithLogger lgs
    (mkMemory p None (RWMutex false 0) (Some (fresh (dom (heap w)))))) as [lg ->].
  pose proof (is_fresh (dom (heap w))) as Hfresh.
  apply not_elem_of_dom in Hfresh.
  destruct w as [h fs o t lg0].
  io_unfold. cbn in *.
  destruct lg as [lg|]; cbn.
  all: destruct (fs !! p) as [text|] eqn:Hp; cbn.
  all: try destruct (hd Succeed o) as [|e n] eqn:Ho1; cbn.
  all: try destruct (hd Succeed (tail o)) as [|e2 n2] eqn:Ho2; cbn.
  all: try destruct (json_Unmarshal text) as [err|[d|]] eqn:Hu; cbn.
  all: rewrite ?Hp; cbn; rewrite ?Hu; cbn.
  all: try (destruct (hd Succeed (tail (tail o))); cbn).
  all: unfold deref; cbn; rewrite ?lookup_insert_eq; cbn; rewrite ?(right_id_L ∅ (∪)).
  all: repeat split; try done.
  all: try (eexists; rewrite <- ?app_assoc; simpl; split; reflexivity).
  all: try (eexists _, _; repeat split; try done; cbn; by simplify_map_eq).
  all: try (eexists; repeat split; try done; cbn; by simplify_map_eq).
Qed.

(** A construction that returned an open store. *)
Lemma NewMemory_open p lgs w m l w' :
  NewMemory json_Unmarshal p (WithLogger <$> lgs) w = ((Some m, None), w') →
  data m = Some l →
  path m = p ∧ files w' = files w ∧
  ∃ d, heap w' !! l = Some d ∧
    match files w !! p with
    | None => d = ∅
    | Some text => json_Unmarshal text = inr (Some d)
    end.
Proof.
  intros Hrun E. pose proof (NewMemory_spec p lgs w) as H. rewrite Hrun in H.
  destruct H as (Hf & _ & H). cbn in H.
  destruct (files w !! p) as [text|].
  - destruct (hd Succeed (oracle w)); [|done].
    destruct (hd Succeed (tail (oracle w))); [|done].
    destruct (json_Unmarshal text) as [e|[d|]]; [done|..].
    + destruct H as (m' & l' & ? & ? & ? & ? & ?). simplify_eq. eauto.
    + destruct H as (m' & ? & ? & ?). simplify_eq.
  - destruct H as (m' & l' & ? & ? & ? & ? & ?). simplify_eq. eauto.
Qed.

End Construction.



(** ** The file before the first persist *)

Section Pristine.

Variable mar : option (gmap string string) → string.
Variable rev : revision.

(** A call that is not a Set (nor, in [src/memory.go], a Delete) finds
    nothing to persist in an empty mapping. *)
Lemma invoke_pristine fs m c w :
  pristine fs m w → persists rev c = false →
  let '((m', _), w') := invoke mar rev m c w in pristine fs m' w'.
Proof.
  unfold pristine. intros [Hfs [E|(l & E & Hl)]] Hc.
  { rewrite invoke_closed by done. split; auto. }
  pose proof (deref_lookup _ _ _ Hl) as Hd.
  destruct c as [key|key value|key| | |]; try done; unfold invoke, Delete_of;
    rewrite bind_run.
  - rewrite (Get_run m l) by done. cbn. rewrite Hd, lookup_empty. cbn. split; eauto.
  - destruct rev; [|done].
    rewrite (Delete_absent mar m l) by (by rewrite ?Hd). cbn. split; eauto.
  - rewrite (Memories_run m l ∅) by done. cbn. split; [done|].
    right. exists l. split; [done|]. rewrite lookup_insert_ne; [done|].
    intros Heq. pose proof (is_fresh (dom (heap w))) as Hfresh.
    apply not_elem_of_dom in Hfresh. congruence.
  - rewrite (Keys_run m l) by done. cbn. split; eauto.
  - unfold Close. rewrite E. cbn. split; auto.
Qed.

Lemma invoke_all_pristine fs m cs w :
  pristine fs m w → Forall (λ c, persists rev c = false) cs →
  let '((m', _), w') := invoke_all mar rev m cs w in pristine fs m' w'.
Proof.
  revert m w. induction cs as [|c cs IH]; intros m w Hp Hcs; [done|].
  apply Forall_cons in Hcs as [Hc Hcs].
  cbn [invoke_all]. rewrite bind_run.
  pose proof (invoke_pristine fs m c w Hp Hc) as H1.
  destruct (invoke mar rev m c w) as [[m1 r1] w1]. cbn [fst snd].
  rewrite bind_run. specialize (IH m1 w1 H1 Hcs).
  by destruct (invoke_all mar rev m1 cs w1) as [[m2 rs] w2].
Qed.

End Pristine.




(** ** Round trip through the file *)

Section RoundTrip.

Variable mar : option (gmap string string) → string.

(** Setting pairs in turn: the mapping takes them all, no other file is
    touched, and if every Set returned nil the file holds the text of the
    final mapping. *)
Lemma Set_all_spec m l kvs w :
  data m = Some l →
  let '(errs, w') := Set_all mar m kvs w in
  deref w' l = assign_all kvs (deref w l) ∧
  match kvs with
  | [] => w' = w
  | _ => Forall (λ e, e = None) errs →
         files w' !! path m = Some (mar (Some (deref w' l)) +:+ newline)
  end.
Proof.
  intros E. revert w. induction kvs as [|[k v] kvs IH]; intros w; [done|].
  cbn [Set_all]. rewrite bind_run.
  pose proof (Set_mapping mar m l k v w E) as Hh. cbn in Hh.
  destruct (Set_ mar m k v w) as [err w1] eqn:Hset. cbn [fst snd] in *.
  assert (deref w1 l = <[k := v]> (deref w l)) as Hd1.
  { apply deref_lookup. rewrite Hh. apply lookup_insert_eq. }
  rewrite bind_run. specialize (IH w1).
  destruct (Set_all mar m kvs w1) as [errs w2]. cbn [fst snd].
  destruct IH as [Hd2 Hfile]. unfold ret. split.
  { rewrite Hd2, Hd1. done. }
  intros [-> Herrs]%Forall_cons.
  destruct kvs as [|kv kvs]; [|by apply Hfile].
  subst w2. rewrite (Set_run mar m l) in Hset by done.
  rewrite (persist_ok _ _ _ _ Hset). unfold written, mapping. rewrite E. cbn.
  pose proof (persist_heap mar m (set_heap <[l := <[k := v]> (deref w l)]> w)) as Hp.
  rewrite Hset in Hp. by rewrite (deref_heap _ _ _ Hp).
Qed.

End RoundTrip.



(** * Further properties of the code *)

(** ** The ways a persist can end *)

Lemma persist_flags_create : has_flag (N.lor (N.lor O_WRONLY O_CREATE) O_TRUNC) O_CREATE = true.
Proof. reflexivity. Qed.

Lemma persist_flags_trunc : has_flag (N.lor (N.lor O_WRONLY O_CREATE) O_TRUNC) O_TRUNC = true.
Proof. reflexivity. Qed.

(** Unfolds a persist on a world given by its fields and splits on the file
    and on the store being open. *)
Ltac persist_unfold fs m :=
  unfold written, mapping, persist_calls, persist_flags, append_file;
  io_unfold; cbn;
  destruct (fs !! path m), (data m); cbn;
  rewrite ?persist_flags_create, ?persist_flags_trunc; cbn.

Section PersistOutcomes.

Variable mar : option (gmap string string) → string.

(** X1: when the system refuses the open for writing, persist returns that
    error wrapped as a failure to open, after this one system call: no file
    is created, truncated or written. *)
Theorem persist_open_failure m w e n :
  hd Succeed (oracle w) = Fail e n →
  persist mar m w =
    (Some (errors_Wrap (os_PathError "open" (path m) e)
             "failed to open file to persist data"),
     set_oracle (tail (oracle w))
       (record_call (sys_openfile (path m) persist_flags perm_0660) w)).
Proof.
  intros Ho. destruct w as [h fs o t lg]. cbn in Ho.
  persist_unfold fs m; by rewrite Ho.
Qed.

(** X2: when the open succeeds and the write fails, persist returns the
    write error wrapped as a failure to encode, and it has closed the file.
    The file no longer has its previous contents: it holds the part of the
    new text that was written before the failure. *)
Theorem persist_write_failure m w e n :
  hd Succeed (oracle w) = Succeed →
  hd Succeed (tail (oracle w)) = Fail e n →
  let '(err, w') := persist mar m w in
  err = Some (errors_Wrap (os_PathError "write" (path m) e)
                "failed to encode data as JSON") ∧
  files w' = <[path m := String.substring 0 n (written mar m w)]> (files w) ∧
  trace w' = trace w ++ persist_calls (path m) (written mar m w) ∧
  heap w' = heap w.
Proof.
  intros Ho1 Ho2. destruct w as [h fs o t lg]. cbn in Ho1, Ho2.
  persist_unfold fs m; rewrite Ho1; cbn; rewrite Ho2; cbn.
  all: destruct (hd Succeed (tail (tail o))); cbn.
  all: rewrite lookup_insert_eq, insert_insert_eq, <- !app_assoc; done.
Qed.

(** X3: when only the close fails, persist returns the error wrapped as a
    failure to close, although the file already holds the complete text of
    the mapping. *)
Theorem persist_close_failure m w e n :
  hd Succeed (oracle w) = Succeed →
  hd Succeed (tail (oracle w)) = Succeed →
  hd Succeed (tail (tail (oracle w))) = Fail e n →
  let '(err, w') := persist mar m w in
  err = Some (errors_Wrap (os_PathError "close" (path m) e)
     "failed to close file; data might not have been fully persisted to disk") ∧
  files w' = <[path m := written mar m w]> (files w) ∧
  trace w' = trace w ++ persist_calls (path m) (written mar m w).
Proof.
  intros Ho1 Ho2 Ho3. destruct w as [h fs o t lg]. cbn in Ho1, Ho2, Ho3.
  persist_unfold fs m; rewrite Ho1; cbn; rewrite Ho2; cbn; rewrite Ho3; cbn.
  all: rewrite lookup_insert_eq, insert_insert_eq, <- !app_assoc; done.
Qed.

(** X4: a persist that the system does not fail replaces whatever the file
    held, or creates the file, with the text of the mapping, in exactly three
    system calls: open, write, close. *)
Theorem persist_success m w :
  quiet 3 w →
  ∃ w', persist mar m w = (None, w') ∧
    files w' = <[path m := written mar m w]> (files w) ∧
    trace w' = trace w ++ persist_calls (path m) (written mar m w) ∧
    heap w' = heap w ∧ logs w' = logs w.
Proof.
  intros Hq.
  assert (hd Succeed (oracle w) = Succeed ∧ hd Succeed (tail (oracle w)) = Succeed ∧
          hd Succeed (tail (tail (oracle w))) = Succeed) as (Ho1 & Ho2 & Ho3).
  { unfold quiet in Hq. destruct (oracle w) as [|o1 [|o2 [|o3 os]]]; cbn in *;
      repeat match goal with H : Forall _ (_ :: _) |- _ =>
        apply Forall_cons in H as [-> H] end; done. }
  destruct w as [h fs o t lg]. cbn in Ho1, Ho2, Ho3.
  persist_unfold fs m; rewrite Ho1; cbn; rewrite Ho2; cbn; rewrite Ho3; cbn.
  all: eexists; split; [reflexivity|]; cbn.
  all: rewrite lookup_insert_eq, insert_insert_eq, <- !app_assoc; done.
Qed.

(** X5: persist never leaves a file open.  Either the open fails, and that
    is the only system call, or the calls are an open, one write of the whole
    text and a close, also when the write fails. *)
Theorem persist_closes_its_file m w :
  let '(err, w') := persist mar m w in
  (trace w' = trace w ++ [sys_openfile (path m) persist_flags perm_0660] ∧
   files w' = files w ∧ err ≠ None) ∨
  trace w' = trace w ++ persist_calls (path m) (written mar m w).
Proof.
  destruct w as [h fs o t lg].
  persist_unfold fs m.
  all: destruct (hd Succeed o) as [|e1 n1]; cbn; [|by left].
  all: destruct (hd Succeed (tail o)) as [|e2 n2]; cbn.
  all: destruct (hd Succeed (tail (tail o))); cbn.
  all: right; by rewrite <- !app_assoc.
Qed.

End PersistOutcomes.

Lemma persist_open_failure_witness :
  let w := world1 [Fail EACCES 0] in
  hd Succeed (oracle w) = Fail EACCES 0 ∧
  files (persist Json.Marshal store0 w).2 = files w ∧
  persist Json.Marshal store0 w =
    (Some (errors_Wrap (os_PathError "open" (path store0) EACCES)
             "failed to open file to persist data"),
     set_oracle (tail (oracle w))
       (record_call (sys_openfile (path store0) persist_flags perm_0660) w)).
Proof.
  intros w. split; [reflexivity|]. split; [reflexivity|].
  apply (persist_open_failure Json.Marshal store0 w EACCES 0). reflexivity.
Defined.

Lemma persist_write_failure_witness :
  let w := world1 [Succeed; Fail ENOSPC 3] in
  hd Succeed (oracle w) = Succeed ∧ hd Succeed (tail (oracle w)) = Fail ENOSPC 3 ∧
  files (persist Json.Marshal store0 w).2 !! joe_json =
    Some (String.substring 0 3 (written Json.Marshal store0 w)) ∧
  let '(err, w') := persist Json.Marshal store0 w in
  err = Some (errors_Wrap (os_PathError "write" (path store0) ENOSPC)
                "failed to encode data as JSON") ∧
  files w' = <[path store0 := String.substring 0 3 (written Json.Marshal store0 w)]> (files w) ∧
  trace w' = trace w ++ persist_calls (path store0) (written Json.Marshal store0 w) ∧
  heap w' = heap w.
Proof.
  intros w. split; [reflexivity|]. split; [reflexivity|].
  split; [vm_compute; reflexivity|].
  apply (persist_write_failure Json.Marshal store0 w ENOSPC 3); reflexivity.
Defined.

Lemma persist_close_failure_witness :
  let w := world1 [Succeed; Succeed; Fail EIO 0] in
  hd Succeed (oracle w) = Succeed ∧ hd Succeed (tail (oracle w)) = Succeed ∧
  hd Succeed (tail (tail (oracle w))) = Fail EIO 0 ∧
  let '(err, w') := persist Json.Marshal store0 w in
  err = Some (errors_Wrap (os_PathError "close" (path store0) EIO)
     "failed to close file; data might not have been fully persisted to disk") ∧
  files w' = <[path store0 := written Json.Marshal store0 w]> (files w) ∧
  trace w' = trace w ++ persist_calls (path store0) (written Json.Marshal store0 w).
Proof.
  intros w. split; [reflexivity|]. split; [reflexivity|]. split; [reflexivity|].
  apply (persist_close_failure Json.Marshal store0 w EIO 0); reflexivity.
Defined.

Lemma persist_success_witness :
  let w := world1 [] in
  quiet 3 w ∧
  ∃ w', persist Json.Marshal store0 w = (None, w') ∧
    files w' = <[path store0 := written Json.Marshal store0 w]> (files w) ∧
    trace w' = trace w ++ persist_calls (path store0) (written Json.Marshal store0 w) ∧
    heap w' = heap w ∧ logs w' = logs w.
Proof.
  intros w. assert (quiet 3 w) as Hq by constructor.
  split; [exact Hq|]. apply (persist_success Json.Marshal store0 w Hq).
Defined.

(** ** What Set and Delete change *)

Section Mutations.

Variable mar : option (gmap string string) → string.

Lemma Get_result m l key w :
  data m = Some l →
  (Get m key w).1 =
    match deref w l !! key with
    | Some v => (v, true, None)
    | None => (EmptyString, false, None)
    end.
Proof. intros E. by rewrite (Get_run m l). Qed.

(** X6: a Set on an open store, whether its persist succeeds or not, changes
    the answer of Get for no other key, changes no file but the store's own,
    no other map of the heap, and writes no log. *)
Theorem Set_changes_only_its_key m l key value w :
  data m = Some l →
  let w' := (Set_ mar m key value w).2 in
  (∀ k, k ≠ key → (Get m k w').1 = (Get m k w).1) ∧
  (∀ p, p ≠ path m → files w' !! p = files w !! p) ∧
  (∀ l', l' ≠ l → heap w' !! l' = heap w !! l') ∧
  logs w' = logs w.
Proof.
  intros E. cbn. pose proof (Set_mapping mar m l key value w E) as Hh. cbn in Hh.
  rewrite (Set_run mar m l) in * by done.
  pose proof (persist_spec mar m (set_heap <[l := <[key := value]> (deref w l)]> w)) as Hp.
  destruct (persist mar m _) as [err w']. cbn in *.
  destruct Hp as (_ & Hlogs & Hfiles & _).
  split; [|split; [|split]]; [|done| |done].
  - intros k Hk. rewrite !(Get_result m l) by done.
    rewrite (deref_lookup w' l (<[key := value]> (deref w l)))
      by (rewrite Hh; apply lookup_insert_eq).
    by rewrite lookup_insert_ne.
  - intros l' Hl'. rewrite Hh. by apply lookup_insert_ne.
Qed.

(** X7: in both revisions, a Delete on an open store returns true exactly
    when the mapping had the key; afterwards, whether the persist succeeded
    or not, Get finds the key missing and answers as before for every other
    key. *)
Theorem Delete_removes_only_its_key rev m l key w :
  data m = Some l →
  let '((ok, err), w') := Delete_of mar rev m key w in
  (ok = true ↔ is_Some (deref w l !! key)) ∧
  Get m key w' = ((EmptyString, false, None), w') ∧
  (∀ k, k ≠ key → (Get m k w').1 = (Get m k w).1).
Proof.
  intros E.
  assert (∀ ok err w',
    Delete_of mar rev m key w = ((ok, err), w') →
    ok = match deref w l !! key with Some _ => true | None => false end ∧
    deref w' l = delete key (deref w l)) as Hd.
  { intros ok err w' Hrun. unfold Delete_of in Hrun. destruct rev.
    - destruct (deref w l !! key) as [v|] eqn:Hk.
      + rewrite (Delete_present mar m l) in Hrun by (rewrite ?Hk; eauto).
        destruct (persist mar m _) as [err' w1] eqn:Hp. simplify_eq.
        split; [done|]. apply deref_lookup.
        pose proof (persist_heap mar m (set_heap <[l := delete key (deref w l)]> w)) as Hh.
        rewrite Hp in Hh. cbn in Hh. rewrite Hh. apply lookup_insert_eq.
      + rewrite (Delete_absent mar m l) in Hrun by done. simplify_eq.
        split; [done|]. by rewrite delete_id.
    - rewrite (MemoryGo_Delete_run mar m l) in Hrun by done.
      destruct (persist mar m _) as [err' w1] eqn:Hp. simplify_eq.
      split; [done|]. apply deref_lookup.
      pose proof (persist_heap mar m (set_heap <[l := delete key (deref w l)]> w)) as Hh.
      rewrite Hp in Hh. cbn in Hh. rewrite Hh. apply lookup_insert_eq. }
  destruct (Delete_of mar rev m key w) as [[ok err] w'] eqn:Hrun.
  destruct (Hd ok err w' eq_refl) as [-> Hderef].
  split; [|split].
  - destruct (deref w l !! key); split; try done; by intros [? ?].
  - rewrite (Get_run m l) by done. by rewrite Hderef, lookup_delete_eq.
  - intros k Hk. rewrite !(Get_result m l) by done.
    by rewrite Hderef, lookup_delete_ne.
Qed.

(** X8: the two revisions of Delete differ only in the persist of a missing
    key.  On a store whose map the heap holds they return the same boolean
    and leave the same heap, and when the mapping has the key they are the
    same call: same error, same world. *)
Theorem Delete_revisions_agree m l key w :
  data m = Some l → is_Some (heap w !! l) →
  let '((ok1, err1), w1) := Delete mar m key w in
  let '((ok2, err2), w2) := MemoryGo.Delete mar m key w in
  ok1 = ok2 ∧ heap w1 = heap w2 ∧
  (is_Some (deref w l !! key) → err1 = err2 ∧ w1 = w2).
Proof.
  intros E [d Hd]. rewrite (MemoryGo_Delete_run mar m l) by done.
  destruct (deref w l !! key) as [v|] eqn:Hk.
  - rewrite (Delete_present mar m l) by (rewrite ?Hk; eauto).
    by destruct (persist mar m _) as [err' w1].
  - rewrite (Delete_absent mar m l) by done.
    pose proof (persist_heap mar m (set_heap <[l := delete key (deref w l)]> w)) as Hh.
    destruct (persist mar m _) as [err' w1]. cbn in Hh.
    split; [done|]. split; [|by intros [? ?]].
    rewrite Hh, delete_id by done.
    rewrite (deref_lookup _ _ _ Hd). by rewrite insert_id.
Qed.

End Mutations.

Lemma Set_changes_only_its_key_witness :
  let w := world1 [Fail EACCES 0] in
  data store0 = Some 1%positive ∧
  (Get store0 "foo" (Set_ Json.Marshal store0 "other" "value" w).2).1 = ("bar", true, None) ∧
  let w' := (Set_ Json.Marshal store0 "other" "value" w).2 in
  (∀ k, k ≠ "other" → (Get store0 k w').1 = (Get store0 k w).1) ∧
  (∀ p, p ≠ path store0 → files w' !! p = files w !! p) ∧
  (∀ l', l' ≠ 1%positive → heap w' !! l' = heap w !! l') ∧
  logs w' = logs w.
Proof.
  intros w. split; [reflexivity|]. split; [vm_compute; reflexivity|].
  apply (Set_changes_only_its_key Json.Marshal store0 1%positive "other" "value" w).
  reflexivity.
Defined.

Lemma Delete_removes_only_its_key_witness :
  let w := world1 [Succeed; Fail ENOSPC 0] in
  data store0 = Some 1%positive ∧
  (Delete_of Json.Marshal MemoryGoFile store0 "foo" w).1.1 = true ∧
  let '((ok, err), w') := Delete_of Json.Marshal MemoryGoFile store0 "foo" w in
  (ok = true ↔ is_Some (deref w 1%positive !! "foo")) ∧
  Get store0 "foo" w' = ((EmptyString, false, None), w') ∧
  (∀ k, k ≠ "foo" → (Get store0 k w').1 = (Get store0 k w).1).
Proof.
  intros w. split; [reflexivity|]. split; [vm_compute; reflexivity|].
  apply (Delete_removes_only_its_key Json.Marshal MemoryGoFile store0 1%positive "foo" w).
  reflexivity.
Defined.

Lemma Delete_revisions_agree_witness :
  let w := world1 [] in
  data store0 = Some 1%positive ∧ is_Some (heap w !! 1%positive) ∧
  let '((ok1, err1), w1) := Delete Json.Marshal store0 "foo" w in
  let '((ok2, err2), w2) := MemoryGo.Delete Json.Marshal store0 "foo" w in
  ok1 = ok2 ∧ heap w1 = heap w2 ∧
  (is_Some (deref w 1%positive !! "foo") → err1 = err2 ∧ w1 = w2).
Proof.
  intros w. split; [reflexivity|].
  assert (is_Some (heap w !! 1%positive)) as Ha by (vm_compute; eauto).
  split; [exact Ha|].
  apply (Delete_revisions_agree Json.Marshal store0 1%positive "foo" w eq_refl Ha).
Defined.

(** ** Sequences of mutations *)

Section Sequences.

Variable mar : option (gmap string string) → string.

(** X9: when pairs are set one after the other on an open store, every
    assignment stays in the mapping whether its persist succeeded or not, and
    as soon as the last Set returns nil the file holds the text of the whole
    mapping: a later successful Set makes up for the failed writes before
    it. *)
Theorem last_Set_brings_the_file_up_to_date m l kvs w :
  data m = Some l →
  let '(errs, w') := Set_all mar m kvs w in
  deref w' l = assign_all kvs (deref w l) ∧
  (last errs = Some None →
   files w' !! path m = Some (mar (Some (assign_all kvs (deref w l))) +:+ newline)).
Proof.
  intros E. revert w. induction kvs as [|[k v] kvs IH]; intros w; [done|].
  cbn [Set_all]. rewrite bind_run.
  pose proof (Set_mapping mar m l k v w E) as Hh. cbn in Hh.
  destruct (Set_ mar m k v w) as [err w1] eqn:Hset. cbn [fst snd] in *.
  assert (deref w1 l = <[k := v]> (deref w l)) as Hd1.
  { apply deref_lookup. rewrite Hh. apply lookup_insert_eq. }
  rewrite bind_run. specialize (IH w1).
  destruct (Set_all mar m kvs w1) as [errs w2] eqn:Hall. cbn [fst snd].
  destruct IH as [Hd2 Hfile]. unfold ret. rewrite Hd1 in Hd2, Hfile.
  split; [done|]. intros Hlast.
  destruct kvs as [|[k' v'] kvs].
  - cbn in Hall. unfold mret, IO_ret, ret in Hall. simplify_eq. cbn in Hlast. simplify_eq.
    rewrite (Set_run mar m l) in Hset by done.
    rewrite (persist_ok _ _ _ _ Hset). unfold written, mapping. rewrite E. cbn.
    by rewrite deref_set_heap.
  - apply Hfile. cbn [Set_all] in Hall. rewrite !bind_run in Hall.
    unfold ret in Hall. by simplify_eq.
Qed.

(** X10: two Sets of different keys can be swapped: the mapping is the same
    in both orders, and when the second Set of each order returns nil, so is
    the file. *)
Theorem Sets_of_different_keys_commute m l k1 v1 k2 v2 w :
  data m = Some l → k1 ≠ k2 →
  let '(errs, w') := Set_all mar m [(k1, v1); (k2, v2)] w in
  let '(errs_swapped, w'') := Set_all mar m [(k2, v2); (k1, v1)] w in
  deref w' l = deref w'' l ∧
  (last errs = Some None → last errs_swapped = Some None →
   files w' !! path m = files w'' !! path m).
Proof.
  intros E Hne.
  assert (∀ ka va kb vb errs w',
    Set_all mar m [(ka, va); (kb, vb)] w = (errs, w') →
    deref w' l = <[kb := vb]> (<[ka := va]> (deref w l)) ∧
    (last errs = Some None →
     files w' !! path m =
       Some (mar (Some (<[kb := vb]> (<[ka := va]> (deref w l)))) +:+ newline))) as Hrun.
  { intros ka va kb vb errs w' Hall. cbn [Set_all] in Hall.
    rewrite bind_run in Hall.
    pose proof (Set_mapping mar m l ka va w E) as Hh1. cbn in Hh1.
    destruct (Set_ mar m ka va w) as [erra wa]. cbn [fst snd] in *.
    assert (deref wa l = <[ka := va]> (deref w l)) as Hda.
    { apply deref_lookup. rewrite Hh1. apply lookup_insert_eq. }
    rewrite !bind_run in Hall.
    pose proof (Set_mapping mar m l kb vb wa E) as Hh2. cbn in Hh2.
    destruct (Set_ mar m kb vb wa) as [errb wb] eqn:Hsetb. cbn [fst snd] in *.
    unfold mret, IO_ret, ret in Hall. cbn in Hall. simplify_eq.
    assert (deref w' l = <[kb := vb]> (<[ka := va]> (deref w l))) as Hdb.
    { apply deref_lookup. rewrite Hh2, Hda. apply lookup_insert_eq. }
    split; [done|]. cbn. intros [= ->].
    rewrite (Set_run mar m l) in Hsetb by done.
    rewrite (persist_ok _ _ _ _ Hsetb). unfold written, mapping. rewrite E. cbn.
    by rewrite deref_set_heap, Hda. }
  destruct (Set_all mar m [(k1, v1); (k2, v2)] w) as [errs w'] eqn:H1.
  destruct (Set_all mar m [(k2, v2); (k1, v1)] w) as [errs' w''] eqn:H2.
  destruct (Hrun _ _ _ _ _ _ H1) as [Hd1 Hf1].
  destruct (Hrun _ _ _ _ _ _ H2) as [Hd2 Hf2].
  rewrite Hd1, Hd2. split; [by apply insert_insert_ne|].
  intros Hl1 Hl2. rewrite (Hf1 Hl1), (Hf2 Hl2).
  by rewrite (insert_insert_ne _ k1 k2).
Qed.

End Sequences.

Lemma last_Set_brings_the_file_up_to_date_witness :
  let w := world1 [Fail EACCES 0] in
  let kvs := [("a", "1"); ("b", "2")] in
  data store0 = Some 1%positive ∧
  (Set_all Json.Marshal store0 kvs w).1 =
    [Some (errors_Wrap (os_PathError "open" joe_json EACCES)
             "failed to open file to persist data"); None] ∧
  let '(errs, w') := Set_all Json.Marshal store0 kvs w in
  deref w' 1%positive = assign_all kvs (deref w 1%positive) ∧
  (last errs = Some None →
   files w' !! path store0 =
     Some (Json.Marshal (Some (assign_all kvs (deref w 1%positive))) +:+ newline)).
Proof.
  intros w kvs. split; [reflexivity|]. split; [vm_compute; reflexivity|].
  apply (last_Set_brings_the_file_up_to_date Json.Marshal store0 1%positive kvs w).
  reflexivity.
Defined.

Lemma Sets_of_different_keys_commute_witness :
  let w := world1 [] in
  data store0 = Some 1%positive ∧ "a" ≠ "b" ∧
  let '(errs, w') := Set_all Json.Marshal store0 [("a", "1"); ("b", "2")] w in
  let '(errs_swapped, w'') := Set_all Json.Marshal store0 [("b", "2"); ("a", "1")] w in
  deref w' 1%positive = deref w'' 1%positive ∧
  (last errs = Some None → last errs_swapped = Some None →
   files w' !! path store0 = files w'' !! path store0).
Proof.
  intros w. split; [reflexivity|].
  assert ("a" ≠ "b") as Hne by discriminate.
  split; [exact Hne|].
  apply (Sets_of_different_keys_commute Json.Marshal store0 1%positive
           "a" "1" "b" "2" w eq_refl Hne).
Defined.

Section Undo.

Variable mar : option (gmap string string) → string.

(** X11: setting a key the mapping does not have and deleting it again, in
    either revision, gives back the mapping as it was: the Delete returns
    true, and when its persist returns nil the file holds the text of the
    original mapping, whatever happened to the persist of the Set. *)
Theorem Delete_undoes_Set rev m l d key value w :
  data m = Some l → heap w !! l = Some d → d !! key = None →
  let w1 := (Set_ mar m key value w).2 in
  let '((ok, err), w2) := Delete_of mar rev m key w1 in
  ok = true ∧ heap w2 !! l = Some d ∧
  (err = None → files w2 !! path m = Some (mar (Some d) +:+ newline)).
Proof.
  intros E Hd Hk. cbn.
  pose proof (Set_mapping mar m l key value w E) as Hh. cbn in Hh.
  destruct (Set_ mar m key value w) as [err1 w1]. cbn in *.
  rewrite (deref_lookup _ _ _ Hd) in Hh.
  assert (deref w1 l = <[key := value]> d) as Hd1.
  { apply deref_lookup. rewrite Hh. apply lookup_insert_eq. }
  assert (∀ err w2,
    persist mar m (set_heap <[l := delete key (deref w1 l)]> w1) = (err, w2) →
    heap w2 !! l = Some d ∧
    (err = None → files w2 !! path m = Some (mar (Some d) +:+ newline))) as Hp.
  { intros err w2 Hrun. rewrite Hd1, delete_insert_id in Hrun by done.
    pose proof (persist_heap mar m (set_heap <[l := d]> w1)) as Hh2.
    rewrite Hrun in Hh2. cbn in Hh2. split.
    - rewrite Hh2. apply lookup_insert_eq.
    - intros ->. rewrite (persist_ok _ _ _ _ Hrun). unfold written, mapping.
      rewrite E. cbn. by rewrite deref_set_heap. }
  unfold Delete_of. destruct rev.
  - rewrite (Delete_present mar m l) by (rewrite ?Hd1, ?lookup_insert_eq; eauto).
    destruct (persist mar m _) as [err w2] eqn:Hrun. split; [done|]. by apply Hp.
  - rewrite (MemoryGo_Delete_run mar m l) by done.
    destruct (persist mar m _) as [err w2] eqn:Hrun.
    rewrite Hd1, lookup_insert_eq. split; [done|]. by apply Hp.
Qed.

End Undo.

Lemma Delete_undoes_Set_witness :
  let w := world1 [Fail EIO 0] in
  data store0 = Some 1%positive ∧ heap w !! 1%positive = Some {["foo" := "bar"]} ∧
  ({["foo" := "bar"]} : gmap string string) !! "fresh" = None ∧
  let w1 := (Set_ Json.Marshal store0 "fresh" "value" w).2 in
  let '((ok, err), w2) := Delete_of Json.Marshal Documented store0 "fresh" w1 in
  ok = true ∧ heap w2 !! 1%positive = Some {["foo" := "bar"]} ∧
  (err = None →
   files w2 !! path store0 = Some (Json.Marshal (Some {["foo" := "bar"]}) +:+ newline)).
Proof.
  intros w. split; [reflexivity|]. split; [vm_compute; reflexivity|].
  split; [vm_compute; reflexivity|].
  apply (Delete_undoes_Set Json.Marshal Documented store0 1%positive
           {["foo" := "bar"]} "fresh" "value" w).
  - reflexivity.
  - vm_compute. reflexivity.
  - vm_compute. reflexivity.
Defined.

(** ** The files of others *)

Section OtherFiles.

Variable mar : option (gmap string string) → string.
Variable rev : revision.

Lemma for_range_assign_files l kvs w :
  files (for_range kvs (λ k v, map_assign l k v) w).2 = files w.
Proof.
  revert w. induction kvs as [|[k v] kvs IH]; intros w; [done|].
  cbn [for_range]. rewrite bind_run. by rewrite IH.
Qed.

Lemma invoke_other_files m c w p :
  p ≠ path m → files (invoke mar rev m c w).2 !! p = files w !! p.
Proof.
  intros Hp. destruct (data m) as [l|] eqn:E; [|by rewrite invoke_closed].
  assert (∀ w1, files (persist mar m w1).2 !! p = files w1 !! p) as Hpersist.
  { intros w1. pose proof (persist_spec mar m w1) as H.
    destruct (persist mar m w1) as [err w2]. cbn. by apply H. }
  destruct c as [key|key value|key| | |]; unfold invoke, Delete_of; rewrite bind_run.
  - rewrite (Get_run m l) by done. cbn. by destruct (deref w l !! key).
  - rewrite (Set_run mar m l) by done.
    specialize (Hpersist (set_heap <[l := <[key := value]> (deref w l)]> w)).
    by destruct (persist mar m _).
  - specialize (Hpersist (set_heap <[l := delete key (deref w l)]> w)).
    destruct rev.
    + destruct (deref w l !! key) as [v|] eqn:Hk.
      * rewrite (Delete_present mar m l) by (rewrite ?Hk; eauto).
        by destruct (persist mar m _).
      * by rewrite (Delete_absent mar m l).
    + rewrite (MemoryGo_Delete_run mar m l) by done. by destruct (persist mar m _).
  - unfold Memories. rewrite E. unfold map_load, map_make. rewrite !bind_run.
    cbn [fst snd]. pose proof (for_range_assign_files
      (fresh (dom (heap w))) (map_to_list (deref w l))
      (set_heap <[fresh (dom (heap w)) := ∅]> w)) as Hf.
    destruct (for_range _ _ _) as [[] w1]. cbn in *. by rewrite Hf.
  - by rewrite (Keys_run m l).
  - unfold Close. by rewrite E.
Qed.

(** X12: whatever calls are made on a store, in either revision, open or
    closed, and whatever the system answers, no file other than the one at the
    store's path is created, changed or removed. *)
Theorem calls_touch_no_other_file m cs w p :
  p ≠ path m → files (invoke_all mar rev m cs w).2 !! p = files w !! p.
Proof.
  revert m w. induction cs as [|c cs IH]; intros m w Hp; [done|].
  cbn [invoke_all]. rewrite bind_run.
  pose proof (invoke_other_files m c w p Hp) as H1.
  pose proof (invoke_keeps_fields mar rev m c w) as (Hpath & _).
  destruct (invoke mar rev m c w) as [[m1 r1] w1]. cbn [fst snd] in *.
  rewrite bind_run. rewrite <- Hpath in Hp. specialize (IH m1 w1 Hp).
  destruct (invoke_all mar rev m1 cs w1) as [[m2 rs] w2]. cbn in *. congruence.
Qed.

End OtherFiles.

Lemma calls_touch_no_other_file_witness :
  let w := mkWorld {[1%positive := ∅]} {["/etc/passwd" := "root"]} [] [] [] in
  let cs := [CallSet "a" "1"; CallDelete "a"; CallMemories; CallClose; CallSet "b" "2"] in
  "/etc/passwd" ≠ path store0 ∧
  files (invoke_all Json.Marshal MemoryGoFile store0 cs w).2 !! "/etc/passwd" =
    files w !! "/etc/passwd".
Proof.
  intros w cs. assert ("/etc/passwd" ≠ path store0) as Hne by discriminate.
  split; [exact Hne|].
  apply (calls_touch_no_other_file Json.Marshal MemoryGoFile store0 cs w "/etc/passwd" Hne).
Defined.

(** ** More on the construction *)

Lemma apply_opts_WithLogger_last lgs m :
  apply_opts (WithLogger <$> lgs) m =
    (set_logger (match last lgs with Some lg => lg | None => logger m end) m, None).
Proof.
  revert m. induction lgs as [|lg lgs IH]; intros m.
  - by destruct m.
  - cbn. rewrite IH. destruct lgs as [|lg' lgs]; [done|].
    rewrite last_cons_cons. destruct (last (lg' :: lgs)) eqn:Hl; [done|].
    by apply last_None in Hl.
Qed.

Lemma apply_opts_failing lgs bad rest err m :
  fails_with err bad →
  ∃ m', apply_opts ((WithLogger <$> lgs) ++ bad :: rest) m = (m', Some err).
Proof.
  intros Hbad. revert m. induction lgs as [|lg lgs IH]; intros m.
  - cbn. specialize (Hbad m). destruct (bad m) as [m' e]. cbn in Hbad. subst e. eauto.
  - cbn. apply IH.
Qed.

Section MoreConstruction.

Variable unm : string → error + option (gmap string string).

(** The store a construction returns and what the construction leaves of the
    heap and in the log. *)
Lemma NewMemory_details p lgs w :
  let '(r, w') := NewMemory unm p (WithLogger <$> lgs) w in
  (∀ l, is_Some (heap w !! l) → heap w' !! l = heap w !! l) ∧
  match r with
  | (Some m, None) =>
      path m = p ∧ logger m = Some (chosen_logger lgs) ∧ mu m = RWMutex false 0 ∧
      (∀ l, data m = Some l → heap w !! l = None) ∧
      match chosen_logger lgs with
      | zap_NewNop => logs w' = logs w
      | zap_Named n =>
          last (logs w') =
            Some (initialized_entry n p (from_option size 0 (mapping w' m)))
      end
  | (None, Some _) => True
  | _ => False
  end.
Proof.
  unfold NewMemory. rewrite bind_run. cbn.
  rewrite apply_opts_WithLogger_last. cbn.
  pose proof (is_fresh (dom (heap w))) as Hfresh.
  apply not_elem_of_dom in Hfresh.
  assert (∀ l d, is_Some (heap w !! l) →
    <[fresh (dom (heap w)) := d]> (heap w) !! l = heap w !! l) as Hframe.
  { intros l d [x Hx]. rewrite lookup_insert_ne; [done|]. congruence. }
  unfold chosen_logger, initialized_entry, mapping.
  destruct w as [h fs o t lg0].
  destruct (last lgs) as [[[|n]|]|]; io_unfold; cbn in *.
  all: destruct (fs !! p) as [text|] eqn:Hp; cbn.
  all: try destruct (hd Succeed o) as [|e n1] eqn:Ho1; cbn.
  all: try destruct (hd Succeed (tail o)) as [|e2 n2] eqn:Ho2; cbn.
  all: try destruct (unm text) as [err|[d|]] eqn:Hu; cbn.
  all: rewrite ?Hp; cbn; rewrite ?Hu; cbn.
  all: try (destruct (hd Succeed (tail (tail o))); cbn).
  all: unfold deref, emit; cbn; rewrite ?lookup_insert_eq; cbn.
  all: rewrite ?(right_id_L ∅ (∪)), ?insert_insert_eq, ?last_snoc.
  all: repeat split; try done; try (intros; simplify_eq; done).
  all: try (intros l0 Hl0; by apply Hframe).
Qed.

(** X13: when the path has a file that the system lets the constructor open
    and read, and the decoder makes a mapping of its contents, the
    constructor returns an open store with exactly that mapping and leaves
    the file as it is: Get answers from the contents of the file. *)
Theorem NewMemory_loads_the_file p lgs w text d :
  files w !! p = Some text → quiet 2 w → unm text = inr (Some d) →
  ∃ m l w', NewMemory unm p (WithLogger <$> lgs) w = ((Some m, None), w') ∧
    path m = p ∧ data m = Some l ∧ mapping w' m = Some d ∧ files w' = files w ∧
    ∀ key, Get m key w' =
      (match d !! key with
       | Some v => (v, true, None)
       | None => (EmptyString, false, None)
       end, w').
Proof.
  intros Hp [Ho1 Ho2]%quiet_two Hu.
  pose proof (NewMemory_spec unm p lgs w) as H.
  destruct (NewMemory unm p _ w) as [r w']. destruct H as (Hfs & _ & H). cbn in H.
  rewrite Hp, Ho1, Ho2, Hu in H. destruct H as (m & l & -> & Hpath & E & _ & Hl).
  exists m, l, w'. pose proof (deref_lookup _ _ _ Hl) as Hd.
  repeat split; try done.
  - unfold mapping. rewrite E. cbn. by rewrite Hd.
  - intros key. rewrite (Get_run m l) by done. by rewrite Hd.
Qed.

(** X14: the options are applied in order before the file is looked at.  As
    soon as one fails, the constructor returns its error as it is, with no
    store: no system call has been made, no log written, and the options
    after it play no part. *)
Theorem NewMemory_stops_at_a_failing_option p lgs bad rest err w :
  fails_with err bad →
  let '(r, w') := NewMemory unm p ((WithLogger <$> lgs) ++ bad :: rest) w in
  r = (None, Some err) ∧
  files w' = files w ∧ trace w' = trace w ∧ logs w' = logs w ∧ oracle w' = oracle w.
Proof.
  intros Hbad. unfold NewMemory. rewrite bind_run. cbn.
  destruct (apply_opts_failing lgs bad rest err
    (mkMemory p None (RWMutex false 0) (Some (fresh (dom (heap w))))) Hbad) as [m' ->].
  done.
Qed.

(** X15: a store that the constructor returns never has a nil logger.  It
    has the logger of the last option, and the no-op logger when there is no
    option or the last one gives nil; with the no-op logger the construction
    logs nothing, and with a named logger the last entry reports the path
    and the number of entries that were loaded. *)
Theorem NewMemory_logger p lgs w m w' :
  NewMemory unm p (WithLogger <$> lgs) w = ((Some m, None), w') →
  logger m = Some (chosen_logger lgs) ∧
  (chosen_logger lgs = zap_NewNop → logs w' = logs w) ∧
  (∀ n, chosen_logger lgs = zap_Named n →
     last (logs w') = Some (initialized_entry n p (from_option size 0 (mapping w' m)))).
Proof.
  intros Hrun. pose proof (NewMemory_details p lgs w) as H. rewrite Hrun in H.
  destruct H as (_ & _ & Hlg & _ & _ & Hlogs).
  split; [done|]. split.
  - intros Hc. by rewrite Hc in Hlogs.
  - intros n Hc. by rewrite Hc in Hlogs.
Qed.

(** X16: when the decoder takes the contents of the file for the JSON null,
    it sets the map to nil and reports no error: the constructor then returns
    a store and no error, but the store is as good as closed, and every call
    on it fails. *)
Theorem NewMemory_of_a_null_file mar rev p lgs w text :
  files w !! p = Some text → quiet 2 w → unm text = inr None →
  ∃ m w', NewMemory unm p (WithLogger <$> lgs) w = ((Some m, None), w') ∧
    data m = None ∧
    ∀ cs, invoke_all mar rev m cs w' = ((m, closed_reply <$> cs), w').
Proof.
  intros Hp [Ho1 Ho2]%quiet_two Hu.
  pose proof (NewMemory_spec unm p lgs w) as H.
  destruct (NewMemory unm p _ w) as [r w']. destruct H as (_ & _ & H). cbn in H.
  rewrite Hp, Ho1, Ho2, Hu in H. destruct H as (m & -> & _ & E).
  exists m, w'. split; [done|]. split; [done|].
  intros cs. by apply invoke_all_closed.
Qed.

(** X17: every construction makes a map of its own.  The map of a store
    that exists already is not the map of the new store and keeps its
    contents through the construction, and a Set on the new store does not
    change what Get answers on the old one, even over the same path. *)
Theorem stores_do_not_share_maps mar p lgs w m1 l1 m2 l2 w' :
  data m1 = Some l1 → is_Some (heap w !! l1) →
  NewMemory unm p (WithLogger <$> lgs) w = ((Some m2, None), w') →
  data m2 = Some l2 →
  l2 ≠ l1 ∧ heap w' !! l1 = heap w !! l1 ∧
  ∀ key value k, (Get m1 k (Set_ mar m2 key value w').2).1 = (Get m1 k w).1.
Proof.
  intros E1 Hl1 Hrun E2. pose proof (NewMemory_details p lgs w) as H.
  rewrite Hrun in H. destruct H as (Hframe & _ & _ & _ & Hfresh & _).
  specialize (Hfresh l2 E2). specialize (Hframe l1 Hl1).
  assert (l2 ≠ l1) as Hne.
  { intros ->. destruct Hl1 as [d Hd]. congruence. }
  split; [done|]. split; [done|].
  intros key value k. rewrite !(Get_result m1 l1) by done.
  pose proof (Set_mapping mar m2 l2 key value w' E2) as Hh. cbn in Hh.
  destruct (Set_ mar m2 key value w') as [err w'']. cbn in *.
  assert (deref w'' l1 = deref w l1) as ->; [|done].
  unfold deref. by rewrite Hh, lookup_insert_ne, Hframe.
Qed.

End MoreConstruction.

Lemma NewMemory_loads_the_file_witness :
  let w := world_with foo_bar_json [] in
  files w !! joe_json = Some foo_bar_json ∧ quiet 2 w ∧
  Json.Unmarshal foo_bar_json = inr (Some {["foo" := "bar"]}) ∧
  ∃ m l w', NewMemory Json.Unmarshal joe_json [] w = ((Some m, None), w') ∧
    path m = joe_json ∧ data m = Some l ∧ mapping w' m = Some {["foo" := "bar"]} ∧
    files w' = files w ∧
    ∀ key, Get m key w' =
      (match ({["foo" := "bar"]} : gmap string string) !! key with
       | Some v => (v, true, None)
       | None => (EmptyString, false, None)
       end, w').
Proof.
  intros w. assert (quiet 2 w) as Hq by constructor.
  assert (Json.Unmarshal foo_bar_json = inr (Some {["foo" := "bar"]})) as Hu
    by (vm_compute; reflexivity).
  split; [reflexivity|]. split; [exact Hq|]. split; [exact Hu|].
  apply (NewMemory_loads_the_file Json.Unmarshal joe_json [] w foo_bar_json
           {["foo" := "bar"]} eq_refl Hq Hu).
Defined.

Lemma NewMemory_stops_at_a_failing_option_witness :
  let w := world_with foo_bar_json [] in
  fails_with (errors_New "bad option") bad_option ∧
  let '(r, w') := NewMemory Json.Unmarshal joe_json
                    ((WithLogger <$> [Some (zap_Named "joe")]) ++
                     bad_option :: [WithLogger None]) w in
  r = (None, Some (errors_New "bad option")) ∧
  files w' = files w ∧ trace w' = trace w ∧ logs w' = logs w ∧ oracle w' = oracle w.
Proof.
  intros w.
  assert (fails_with (errors_New "bad option") bad_option) as Hbad by (intros m; reflexivity).
  split; [exact Hbad|].
  apply (NewMemory_stops_at_a_failing_option Json.Unmarshal joe_json
           [Some (zap_Named "joe")] bad_option [WithLogger None]
           (errors_New "bad option") w Hbad).
Defined.

Lemma NewMemory_logger_witness :
  let lgs := [None; Some (zap_Named "joe")] in
  let w := world_with foo_bar_json [] in
  ∃ m w', NewMemory Json.Unmarshal joe_json (WithLogger <$> lgs) w = ((Some m, None), w') ∧
    last (logs w') = Some (initialized_entry "joe" joe_json 1) ∧
    logger m = Some (chosen_logger lgs) ∧
    (chosen_logger lgs = zap_NewNop → logs w' = logs w) ∧
    (∀ n, chosen_logger lgs = zap_Named n →
       last (logs w') =
         Some (initialized_entry n joe_json (from_option size 0 (mapping w' m)))).
Proof.
  intros lgs w.
  destruct (NewMemory Json.Unmarshal joe_json (WithLogger <$> lgs) w) as [[[m|] [e|]] w']
    eqn:Hrun; try (vm_compute in Hrun; discriminate Hrun).
  exists m, w'. split; [reflexivity|]. split.
  - vm_compute in Hrun. injection Hrun as <- <-. vm_compute. reflexivity.
  - apply (NewMemory_logger Json.Unmarshal joe_json lgs w m w' Hrun).
Defined.

Lemma NewMemory_of_a_null_file_witness :
  let w := world_with "null" [] in
  files w !! joe_json = Some "null" ∧ quiet 2 w ∧ Json.Unmarshal "null" = inr None ∧
  ∃ m w', NewMemory Json.Unmarshal joe_json [] w = ((Some m, None), w') ∧
    data m = None ∧
    ∀ cs, invoke_all Json.Marshal Documented m cs w' = ((m, closed_reply <$> cs), w').
Proof.
  intros w. assert (quiet 2 w) as Hq by constructor.
  split; [reflexivity|]. split; [exact Hq|]. split; [reflexivity|].
  apply (NewMemory_of_a_null_file Json.Unmarshal Json.Marshal Documented joe_json []
           w "null" eq_refl Hq eq_refl).
Defined.

Lemma stores_do_not_share_maps_witness :
  data store0 = Some 1%positive ∧ is_Some (heap world0 !! 1%positive) ∧
  ∃ m2 l2 w',
    NewMemory Json.Unmarshal joe_json [] world0 = ((Some m2, None), w') ∧
    data m2 = Some l2 ∧
    l2 ≠ 1%positive ∧ heap w' !! 1%positive = heap world0 !! 1%positive ∧
    ∀ key value k,
      (Get store0 k (Set_ Json.Marshal m2 key value w').2).1 = (Get store0 k world0).1.
Proof.
  split; [reflexivity|].
  assert (is_Some (heap world0 !! 1%positive)) as Ha by (vm_compute; eauto).
  split; [exact Ha|].
  destruct (NewMemory Json.Unmarshal joe_json [] world0) as [[[m2|] [e|]] w']
    eqn:Hrun; try (vm_compute in Hrun; discriminate Hrun).
  destruct (data m2) as [l2|] eqn:E2.
  - exists m2, l2, w'. split; [reflexivity|]. split; [exact E2|].
    apply (stores_do_not_share_maps Json.Unmarshal Json.Marshal joe_json [] world0
             store0 1%positive m2 l2 w' eq_refl Ha Hrun E2).
  - vm_compute in Hrun. injection Hrun as <- <-. discriminate E2.
Defined.

(** ** Registration *)

Section RegistrationProofs.

Variable unm : string → error + option (gmap string string).
Variable Logger_Named : zap_Logger → string → zap_Logger.

(** What a construction with the options [WithLogger <$> lgs] returns. *)
Lemma NewMemory_returns p lgs w :
  let '((memory, err), w') := NewMemory unm p (WithLogger <$> lgs) w in
  match err with
  | Some _ => memory = None
  | None => ∃ m, memory = Some m ∧ path m = p ∧ logger m = Some (chosen_logger lgs)
  end ∧
  (files w !! p = None →
   err = None ∧ ∃ m, memory = Some m ∧ mapping w' m = Some ∅).
Proof.
  pose proof (NewMemory_details unm p lgs w) as Hd.
  pose proof (NewMemory_spec unm p lgs w) as Hs.
  destruct (NewMemory unm p _ w) as [[memory err] w'].
  destruct Hd as (_ & Hd). destruct Hs as (_ & _ & Hs). cbn in Hs. split.
  - destruct memory as [m|], err as [e|]; try done.
    destruct Hd as (? & ? & _). eauto.
  - intros Hp. rewrite Hp in Hs. destruct Hs as (m & l & ? & _ & E & _ & Hl).
    simplify_eq. split; [done|]. exists m. split; [done|].
    unfold mapping. rewrite E. cbn. by rewrite (deref_lookup _ _ _ Hl).
Qed.

(** X18: the registration of [src/memory.go] passes the error of the
    constructor on as it is and then leaves the configuration as it was;
    otherwise it puts the new store in the field Memory, and nothing else is
    changed.  The store logs under the name "memory" below the logger of the
    configuration, and to nowhere when the configuration has none.  Over a
    path with no file the registration succeeds, with an empty store. *)
Theorem MemoryOption_registers_the_store p conf w :
  let '((conf', err), w') := MemoryOption unm Logger_Named p conf w in
  Config_Logger conf' = Config_Logger conf ∧
  match err with
  | Some _ => conf' = conf
  | None =>
      ∃ m, Config_Memory conf' = Some m ∧ path m = p ∧
           logger m = Some (match Config_Logger conf with
                            | Some lg => Logger_Named lg "memory"
                            | None => zap_NewNop
                            end)
  end ∧
  (files w !! p = None →
   err = None ∧ ∃ m, Config_Memory conf' = Some m ∧ mapping w' m = Some ∅).
Proof.
  unfold MemoryOption. rewrite bind_run.
  set (lgs := match Config_Logger conf with
              | Some lg => [Some (Logger_Named lg "memory")]
              | None => []
              end).
  assert (match Config_Logger conf with
          | Some lg => [WithLogger (Some (Logger_Named lg "memory"))]
          | None => []
          end = WithLogger <$> lgs) as -> by (unfold lgs; by destruct (Config_Logger conf)).
  assert (chosen_logger lgs = match Config_Logger conf with
                              | Some lg => Logger_Named lg "memory"
                              | None => zap_NewNop
                              end) as Hlg by (unfold lgs; by destruct (Config_Logger conf)).
  pose proof (NewMemory_returns p lgs w) as H.
  destruct (NewMemory unm p (WithLogger <$> lgs) w) as [[memory err] w'].
  cbn [fst snd]. destruct H as [H1 H2]. rewrite Hlg in H1.
  destruct err as [e|]; cbn.
  - split; [done|]. split; [done|]. intros Hp. by destruct (H2 Hp).
  - split; [done|]. split; [done|]. intros Hp. by destruct (H2 Hp).
Qed.

Variable Config : Type.
Variable Config_Logger_named : Config → string → option zap_Logger.
Variable Config_SetMemory : option memory → Config → Config.

(** X19: the registration of the documented revision returns the error of
    the constructor as it is, without touching the configuration; otherwise
    it hands the new store, and nothing else, to SetMemory.  The store logs
    with the logger the configuration gives for the name "memory".  Over a
    path with no file the registration succeeds, with an empty store. *)
Theorem Memory_registers_the_store p conf w :
  let '((conf', err), w') :=
    Memory unm Config Config_Logger_named Config_SetMemory p conf w in
  match err with
  | Some _ => conf' = conf
  | None =>
      ∃ m, conf' = Config_SetMemory (Some m) conf ∧ path m = p ∧
           logger m = Some (default zap_NewNop (Config_Logger_named conf "memory"))
  end ∧
  (files w !! p = None →
   err = None ∧ ∃ m, conf' = Config_SetMemory (Some m) conf ∧ mapping w' m = Some ∅).
Proof.
  unfold Memory. rewrite bind_run.
  pose proof (NewMemory_returns p [Config_Logger_named conf "memory"] w) as H.
  cbn [fmap list_fmap] in H.
  destruct (NewMemory unm p [WithLogger (Config_Logger_named conf "memory")] w)
    as [[memory err] w'].
  cbn [fst snd]. destruct H as [H1 H2].
  assert (chosen_logger [Config_Logger_named conf "memory"] =
          default zap_NewNop (Config_Logger_named conf "memory")) as Hlg.
  { unfold chosen_logger. cbn. by destruct (Config_Logger_named conf "memory"). }
  rewrite Hlg in H1.
  destruct err as [e|]; cbn.
  - split; [done|]. intros Hp. by destruct (H2 Hp).
  - destruct H1 as (m & -> & ? & ?). split; [eauto|].
    intros Hp. destruct (H2 Hp) as (_ & m' & ? & ?). simplify_eq. eauto.
Qed.

End RegistrationProofs.

Lemma MemoryOption_registers_the_store_witness :
  let conf := mkConfig (Some (zap_Named "joe")) None in
  files empty_world !! joe_json = None ∧
  let '((conf', err), w') :=
    MemoryOption Json.Unmarshal Named_dotted joe_json conf empty_world in
  Config_Logger conf' = Config_Logger conf ∧
  match err with
  | Some _ => conf' = conf
  | None =>
      ∃ m, Config_Memory conf' = Some m ∧ path m = joe_json ∧
           logger m = Some (match Config_Logger conf with
                            | Some lg => Named_dotted lg "memory"
                            | None => zap_NewNop
                            end)
  end ∧
  (err = None ∧ ∃ m, Config_Memory conf' = Some m ∧ mapping w' m = Some ∅).
Proof.
  intros conf. split; [reflexivity|].
  pose proof (MemoryOption_registers_the_store Json.Unmarshal Named_dotted joe_json
                conf empty_world) as H.
  destruct (MemoryOption Json.Unmarshal Named_dotted joe_json conf empty_world)
    as [[conf' err] w'].
  destruct H as (H1 & H2 & H3). split; [exact H1|]. split; [exact H2|].
  apply H3. reflexivity.
Defined.

Lemma Memory_registers_the_store_witness :
  let conf := mkConfig (Some (zap_Named "joe")) None in
  files empty_world !! joe_json = None ∧
  let '((conf', err), w') :=
    Memory Json.Unmarshal joe_Config Config_logger_of Config_set_memory joe_json conf
      empty_world in
  match err with
  | Some _ => conf' = conf
  | None =>
      ∃ m, conf' = Config_set_memory (Some m) conf ∧ path m = joe_json ∧
           logger m = Some (default zap_NewNop (Config_logger_of conf "memory"))
  end ∧
  (err = None ∧ ∃ m, conf' = Config_set_memory (Some m) conf ∧ mapping w' m = Some ∅).
Proof.
  intros conf. split; [reflexivity|].
  pose proof (Memory_registers_the_store Json.Unmarshal joe_Config Config_logger_of
                Config_set_memory joe_json conf empty_world) as H.
  destruct (Memory Json.Unmarshal joe_Config Config_logger_of Config_set_memory
              joe_json conf empty_world) as [[conf' err] w'].
  destruct H as (H1 & H2). split; [exact H1|]. apply H2. reflexivity.
Defined.

(** ** A write that fails half way *)

Section TornWrite.

Variable mar : option (gmap string string) → string.
Variable unm : string → error + option (gmap string string).

Lemma persist_torn m w e n :
  hd Succeed (oracle w) = Succeed →
  hd Succeed (tail (oracle w)) = Fail e n →
  let '(err, w') := persist mar m w in
  err = Some (errors_Wrap (os_PathError "write" (path m) e)
                "failed to encode data as JSON") ∧
  files w' !! path m = Some (String.substring 0 n (written mar m w)).
Proof.
  intros Ho1 Ho2. destruct w as [h fs o t lg]. cbn in Ho1, Ho2.
  persist_unfold fs m; rewrite Ho1; cbn; rewrite Ho2; cbn.
  all: destruct (hd Succeed (tail (tail o))); cbn.
  all: by rewrite lookup_insert_eq, insert_insert_eq, lookup_insert_eq.
Qed.

(** X20: the rewrite of the file is not atomic.  When the write of a Set
    fails after [n] bytes, the previous contents of the file are gone and the
    file holds the first [n] bytes of the new text; if the decoder rejects
    that text, the next construction over the path fails with the decode
    error, although the store in memory still answers. *)
Theorem failed_write_leaves_a_torn_file m l key value w e n lgs :
  data m = Some l →
  hd Succeed (oracle w) = Succeed →
  hd Succeed (tail (oracle w)) = Fail e n →
  let text := mar (Some (<[key := value]> (deref w l))) +:+ newline in
  let '(err, w') := Set_ mar m key value w in
  err = Some (errors_Wrap (os_PathError "write" (path m) e)
                "failed to encode data as JSON") ∧
  files w' !! path m = Some (String.substring 0 n text) ∧
  Get m key w' = ((value, true, None), w') ∧
  (∀ e', quiet 2 w' → unm (String.substring 0 n text) = inl e' →
     (NewMemory unm (path m) (WithLogger <$> lgs) w').1 =
       (None, Some (errors_Wrap e' "failed decode data as JSON"))).
Proof.
  intros E Ho1 Ho2. cbn.
  pose proof (Set_mapping mar m l key value w E) as Hh. cbn in Hh.
  rewrite (Set_run mar m l) in * by done.
  pose proof (persist_torn m (set_heap <[l := <[key := value]> (deref w l)]> w) e n
                Ho1 Ho2) as Hp.
  destruct (persist mar m _) as [err w']. cbn in Hh.
  destruct Hp as [-> Hfile].
  unfold written, mapping in Hfile. rewrite E in Hfile. cbn in Hfile.
  rewrite deref_set_heap in Hfile.
  split; [done|]. split; [done|]. split.
  { rewrite (Get_run m l) by done.
    rewrite (deref_lookup w' l (<[key := value]> (deref w l)))
      by (rewrite Hh; apply lookup_insert_eq).
    by rewrite lookup_insert_eq. }
  intros e' [Hq1 Hq2]%quiet_two Hu.
  pose proof (NewMemory_spec unm (path m) lgs w') as H.
  destruct (NewMemory unm (path m) _ w') as [r w'']. destruct H as (_ & _ & H).
  cbn in H. by rewrite Hfile, Hq1, Hq2, Hu in H.
Qed.

End TornWrite.

Lemma failed_write_leaves_a_torn_file_witness :
  let w := world1 [Succeed; Fail ENOSPC 5] in
  let text := Json.Marshal (Some (<["k" := "v"]> (deref w 1%positive))) +:+ newline in
  data store0 = Some 1%positive ∧
  hd Succeed (oracle w) = Succeed ∧ hd Succeed (tail (oracle w)) = Fail ENOSPC 5 ∧
  quiet 2 (Set_ Json.Marshal store0 "k" "v" w).2 ∧
  Json.Unmarshal (String.substring 0 5 text) =
    inl (json_SyntaxError "unexpected end of JSON input") ∧
  let '(err, w') := Set_ Json.Marshal store0 "k" "v" w in
  err = Some (errors_Wrap (os_PathError "write" (path store0) ENOSPC)
                "failed to encode data as JSON") ∧
  files w' !! path store0 = Some (String.substring 0 5 text) ∧
  Get store0 "k" w' = (("v", true, None), w') ∧
  (∀ e', quiet 2 w' → Json.Unmarshal (String.substring 0 5 text) = inl e' →
     (NewMemory Json.Unmarshal (path store0) (WithLogger <$> []) w').1 =
       (None, Some (errors_Wrap e' "failed decode data as JSON"))).
Proof.
  intros w text. split; [reflexivity|]. split; [reflexivity|]. split; [reflexivity|].
  split; [vm_compute; constructor|]. split; [vm_compute; reflexivity|].
  apply (failed_write_leaves_a_torn_file Json.Marshal Json.Unmarshal store0 1%positive
           "k" "v" w ENOSPC 5 []); reflexivity.
Defined.
